(** * Quantized note sequences and the attention-RNN melody codec

    A shallow embedding of
      - [magenta/lib/sequences_lib.py] (the quantizer), and
      - [magenta/models/attention_rnn/attention_rnn_encoder_decoder.py]
        (the melody feature codec),
    together with the properties of both that the design document states.

    Python integers are [Z]; Python floats are IEEE-754 binary64 values,
    represented by the Standard Library's [spec_float] with precision 53 and
    maximal exponent 1024; a dictionary is a [gmap]; a method that mutates
    its receiver and may raise is a function from the receiver to an outcome
    and the receiver afterwards. *)

From Stdlib Require Import ZArith List Bool Lia.
From Stdlib Require Import Floats.SpecFloat.
From stdpp Require Import base gmap list.

Local Open Scope Z_scope.

(** * Python primitives *)

Module Py.

(** The exceptions the two modules can raise: three of their own and the
    built-in ones raised by [int()], [max()] and list indexing. *)
Inductive exn : Type :=
  | BadNoteException
  | BadTimeSignatureException
  | MultipleTimeSignatureException
  | OverflowError
  | ValueError
  | IndexError.

Inductive result (A : Type) : Type :=
  | Ok (a : A)
  | Raise (e : exn).
Arguments Ok {A} a.
Arguments Raise {A} e.

(** Sequencing of operations that may raise but touch no object. *)
Definition rbind {A B} (r : result A) (k : A -> result B) : result B :=
  match r with
  | Ok a => k a
  | Raise e => Raise e
  end.
Notation "'let+' x ':=' c 'in' k" := (rbind c (fun x => k))
  (at level 10, x name, c at level 100, k at level 200).

(** A computation over a mutable object of type [S]: the outcome, and the
    object as it is left, also when an exception escapes. *)
Definition M (S A : Type) : Type := S -> result A * S.

Definition ret {S A} (a : A) : M S A := fun s => (Ok a, s).
Definition raise {S A} (e : exn) : M S A := fun s => (Raise e, s).
Definition bind {S A B} (c : M S A) (k : A -> M S B) : M S B :=
  fun s => match c s with
           | (Ok a, s') => k a s'
           | (Raise e, s') => (Raise e, s')
           end.
Definition get {S} : M S S := fun s => (Ok s, s).
Definition modify {S} (f : S -> S) : M S unit := fun s => (Ok tt, f s).
Definition lift {S A} (r : result A) : M S A := fun s => (r, s).

Notation "'let*' x ':=' c 'in' k" := (bind c (fun x => k))
  (at level 10, x name, c at level 100, k at level 200).
Notation "c ';;;' k" := (bind c (fun _ => k))
  (at level 100, k at level 200, right associativity).

(** [for x in l: body(x)] *)
Fixpoint for_each {S A} (l : list A) (body : A -> M S unit) : M S unit :=
  match l with
  | [] => ret tt
  | x :: l' => body x ;;; for_each l' body
  end.

(** [len(l)] *)
Definition len {A} (l : list A) : Z := Z.of_nat (length l).

(** ** Floats *)

Definition float : Type := spec_float.
Definition fadd : float -> float -> float := SFadd 53 1024.
Definition fsub : float -> float -> float := SFsub 53 1024.
Definition fmul : float -> float -> float := SFmul 53 1024.
Definition fdiv : float -> float -> float := SFdiv 53 1024.
Definition feqb : float -> float -> bool := SFeqb.

(** The float nearest to an integer (round to nearest, ties to even);
    an infinity when the integer is out of range. *)
Definition f_of_Z (z : Z) : float := binary_normalize 53 1024 z 0 false.

(** The implicit conversion of an [int] operand in mixed arithmetic, which
    raises [OverflowError] when the integer is too large for a float. *)
Definition float_of_int (z : Z) : result float :=
  match f_of_Z z with
  | S754_infinity _ => Raise OverflowError
  | f => Ok f
  end.

(** [int(x)] on a float: truncation toward zero; [ValueError] on a NaN and
    [OverflowError] on an infinity. *)
Definition int_of_float (x : float) : result Z :=
  match x with
  | S754_nan => Raise ValueError
  | S754_infinity _ => Raise OverflowError
  | S754_zero _ => Ok 0
  | S754_finite s m e =>
      Ok (cond_Zopp s (match e with
                       | Zneg k => Z.pos m / 2 ^ Z.pos k
                       | _ => Z.pos m * 2 ^ e
                       end))
  end.

(** [math.floor(x)], for comparison with [int(x)]: the largest integer not
    above [x]. *)
Definition floor_of_float (x : float) : result Z :=
  match x with
  | S754_nan => Raise ValueError
  | S754_infinity _ => Raise OverflowError
  | S754_zero _ => Ok 0
  | S754_finite s m e =>
      Ok (match e with
          | Zneg k => cond_Zopp s (Z.pos m) / 2 ^ Z.pos k
          | _ => cond_Zopp s (Z.pos m) * 2 ^ e
          end)
  end.

(** ** Sequences *)

(** The position an index [i] denotes in a sequence of length [n]: a
    negative index counts from the end. *)
Definition wrap (n i : Z) : Z := if i <? 0 then i + n else i.

(** [l[i]] with Python's negative indices. *)
Definition getitem {A} (l : list A) (i : Z) : result A :=
  let j := wrap (len l) i in
  if (j <? 0) || (len l <=? j) then Raise IndexError
  else match l !! Z.to_nat j with
       | Some x => Ok x
       | None => Raise IndexError
       end.

(** [l[i] = v] with Python's negative indices; the list keeps its length. *)
Definition setitem {A} (l : list A) (i : Z) (v : A) : result (list A) :=
  let j := wrap (len l) i in
  if (j <? 0) || (len l <=? j) then Raise IndexError
  else Ok (<[Z.to_nat j := v]> l).

(** [[v] * n] *)
Definition list_repeat {A} (v : A) (n : Z) : list A :=
  replicate (Z.to_nat n) v.

(** [max(l)] over integers. *)
Definition max_of (l : list Z) : result Z :=
  match l with
  | [] => Raise ValueError
  | x :: l' => Ok (fold_left Z.max l' x)
  end.

End Py.

(** * The wire format of the input

    The note-sequence protocol buffer is read through these fields only. *)

Module music_pb2.
Import Py.

Record Note : Type := {
  pitch : Z;
  velocity : Z;
  start_time : float;
  end_time : float;
  instrument : Z;
  program : Z
}.

Record TimeSignature : Type := { numerator : Z; denominator : Z }.

Record Tempo : Type := { bpm : float }.

Record NoteSequence : Type := {
  notes : list Note;
  tempos : list Tempo;
  time_signatures : list TimeSignature
}.

End music_pb2.

(** * sequences_lib.py *)

Module sequences_lib.
Import Py.

(** [QUANTIZE_CUTOFF = 0.5] *)
Definition QUANTIZE_CUTOFF : float := S754_finite false 4503599627370496 (-53).

(** [x and not x & (x - 1)], as the truth value the caller tests. *)
Definition is_power_of_2 (x : Z) : bool :=
  negb (x =? 0) && (Z.land x (x - 1) =? 0).

Record Note : Type := {
  pitch : Z;
  velocity : Z;
  start : Z;
  end_ : Z;
  instrument : Z;
  program : Z
}.

Record TimeSignature : Type := { numerator : Z; denominator : Z }.

Global Instance Note_eq_dec : EqDecision Note.
Proof. solve_decision. Defined.

Global Instance TimeSignature_eq_dec : EqDecision TimeSignature.
Proof. solve_decision. Defined.

Record QuantizedSequence : Type := {
  tracks : gmap Z (list Note);
  bpm : float;
  time_signature : TimeSignature;
  steps_per_beat : Z
}.

(** Attribute assignments [self.f = v]. *)
Definition set_tracks (v : gmap Z (list Note)) (self : QuantizedSequence) :=
  {| tracks := v; bpm := bpm self; time_signature := time_signature self;
     steps_per_beat := steps_per_beat self |}.
Definition set_bpm (v : float) (self : QuantizedSequence) :=
  {| tracks := tracks self; bpm := v; time_signature := time_signature self;
     steps_per_beat := steps_per_beat self |}.
Definition set_time_signature (v : TimeSignature) (self : QuantizedSequence) :=
  {| tracks := tracks self; bpm := bpm self; time_signature := v;
     steps_per_beat := steps_per_beat self |}.
Definition set_steps_per_beat (v : Z) (self : QuantizedSequence) :=
  {| tracks := tracks self; bpm := bpm self;
     time_signature := time_signature self; steps_per_beat := v |}.

Definition _reset : M QuantizedSequence unit :=
  modify (set_tracks ∅) ;;;
  modify (set_bpm (f_of_Z 120)) ;;;
  modify (set_time_signature {| numerator := 4; denominator := 4 |}) ;;;
  modify (set_steps_per_beat 4).

(** [QuantizedSequence()]: the constructor only resets; the receiver it
    starts from has no attribute yet, so any value stands for it. *)
Definition blank : QuantizedSequence :=
  {| tracks := ∅; bpm := S754_zero false;
     time_signature := {| numerator := 0; denominator := 0 |};
     steps_per_beat := 0 |}.
Definition __init__ : QuantizedSequence := snd (_reset blank).

(** [quantize = lambda x: int(x + (1 - QUANTIZE_CUTOFF))] *)
Definition quantize (x : float) : result Z :=
  int_of_float (fadd x (fsub (f_of_Z 1) QUANTIZE_CUTOFF)).

(** [steps_per_beat * self.bpm / 60.0], with an integer [steps_per_beat]. *)
Definition steps_per_second (steps_per_beat : Z) (bpm : float)
    : result float :=
  let+ spb := float_of_int steps_per_beat in
  Ok (fdiv (fmul spb bpm) (f_of_Z 60)).

(** The body of [for note in note_sequence.notes]. *)
Definition quantize_note_into (steps_per_second : float)
    (note : music_pb2.Note) : M QuantizedSequence unit :=
  let* start_step :=
    lift (quantize (fmul (music_pb2.start_time note) steps_per_second)) in
  let* end_step :=
    lift (quantize (fmul (music_pb2.end_time note) steps_per_second)) in
  let end_step := if end_step =? start_step then end_step + 1 else end_step in
  (if (start_step <? 0) || (end_step <? 0)
   then raise BadNoteException else ret tt) ;;;
  let* self := get in
  (if decide (is_Some (tracks self !! music_pb2.instrument note))
   then ret tt
   else modify (fun self =>
          set_tracks (<[music_pb2.instrument note := []]> (tracks self)) self)) ;;;
  modify (fun self =>
    set_tracks
      (alter (fun l => l ++ [ {| pitch := music_pb2.pitch note;
                                 velocity := music_pb2.velocity note;
                                 start := start_step;
                                 end_ := end_step;
                                 instrument := music_pb2.instrument note;
                                 program := music_pb2.program note |} ])
             (music_pb2.instrument note) (tracks self))
      self).

Definition from_note_sequence (note_sequence : music_pb2.NoteSequence)
    (steps_per_beat : Z) : M QuantizedSequence unit :=
  _reset ;;;
  modify (set_steps_per_beat steps_per_beat) ;;;
  (if 1 <? len (music_pb2.time_signatures note_sequence)
   then raise MultipleTimeSignatureException else ret tt) ;;;
  (match music_pb2.time_signatures note_sequence with
   | ts0 :: _ =>
       modify (set_time_signature
                 {| numerator := music_pb2.numerator ts0;
                    denominator := music_pb2.denominator ts0 |})
   | [] => ret tt
   end) ;;;
  let* self := get in
  (if negb (is_power_of_2 (denominator (time_signature self)))
   then raise BadTimeSignatureException else ret tt) ;;;
  modify (set_bpm (match music_pb2.tempos note_sequence with
                   | t0 :: _ => music_pb2.bpm t0
                   | [] => f_of_Z 120
                   end)) ;;;
  let* self := get in
  let* steps_per_second :=
    lift (steps_per_second steps_per_beat (bpm self)) in
  for_each (music_pb2.notes note_sequence) (quantize_note_into steps_per_second).

(** [set(l1) == set(l2)] for lists of hashable values. *)
Definition set_eqb (l1 l2 : list Note) : bool :=
  bool_decide (l1 ⊆ l2) && bool_decide (l2 ⊆ l1).

(** The test of the loop of [__eq__]:
    [track not in other.tracks or
     set(self.tracks[track]) != set(other.tracks[track])]. *)
Definition track_differs (other : QuantizedSequence) (track : Z)
    (notes : list Note) : bool :=
  match tracks other !! track with
  | None => true
  | Some notes' => negb (set_eqb notes notes')
  end.

(** [self == other] for two quantized sequences; the [isinstance] test is
    the argument's type. *)
Definition __eq__ (self other : QuantizedSequence) : bool :=
  if bool_decide (map_Exists (fun track notes =>
                    track_differs other track notes = true) (tracks self))
  then false
  else feqb (bpm self) (bpm other)
       && bool_decide (time_signature self = time_signature other)
       && (steps_per_beat self =? steps_per_beat other).

(** ** Auxiliary definitions for the statements below *)

(** The half-up rule as the design document words it:
    [floor(x + (1 - CUTOFF))], the sum being the float sum. *)
Definition quantize_floor (x : float) : result Z :=
  floor_of_float (fadd x (fsub (f_of_Z 1) QUANTIZE_CUTOFF)).

(** A power of two: 1, 2, 4, 8, ... *)
Definition power_of_two (x : Z) : Prop := exists k, 0 <= k /\ x = 2 ^ k.

(** The time signature and the tempo a note sequence asks for. *)
Definition adopted_time_signature (ns : music_pb2.NoteSequence)
    : TimeSignature :=
  match music_pb2.time_signatures ns with
  | ts0 :: _ => {| numerator := music_pb2.numerator ts0;
                   denominator := music_pb2.denominator ts0 |}
  | [] => {| numerator := 4; denominator := 4 |}
  end.

Definition adopted_bpm (ns : music_pb2.NoteSequence) : float :=
  match music_pb2.tempos ns with
  | t0 :: _ => music_pb2.bpm t0
  | [] => f_of_Z 120
  end.

(** The note one input note becomes, or the exception it causes. *)
Definition quantized (sps : float) (note : music_pb2.Note) : result Note :=
  let+ s := quantize (fmul (music_pb2.start_time note) sps) in
  let+ e := quantize (fmul (music_pb2.end_time note) sps) in
  let e' := if e =? s then e + 1 else e in
  if (s <? 0) || (e' <? 0) then Raise BadNoteException
  else Ok {| pitch := music_pb2.pitch note;
             velocity := music_pb2.velocity note;
             start := s; end_ := e';
             instrument := music_pb2.instrument note;
             program := music_pb2.program note |}.

(** Filing a quantized note under its instrument. *)
Definition file_note (tr : gmap Z (list Note)) (q : Note)
    : gmap Z (list Note) :=
  alter (fun l => l ++ [q]) (instrument q)
        (if decide (is_Some (tr !! instrument q)) then tr
         else <[instrument q := []]> tr).

(** The receiver after the reset and the assignment of [steps_per_beat]. *)
Definition after_reset (spb : Z) : QuantizedSequence :=
  {| tracks := ∅; bpm := f_of_Z 120;
     time_signature := {| numerator := 4; denominator := 4 |};
     steps_per_beat := spb |}.

(** The notes quantized before the first exception, and that exception. *)
Fixpoint quantized_prefix (sps : float) (notes : list music_pb2.Note)
    : list Note * option exn :=
  match notes with
  | [] => ([], None)
  | note :: rest =>
      match quantized sps note with
      | Ok q => let '(qs, e) := quantized_prefix sps rest in (q :: qs, e)
      | Raise e => ([], Some e)
      end
  end.

End sequences_lib.

(** * melodies_lib: what the codec imports *)

Module melodies_lib.
Import Py.

(** Modelled from the spec: melodies_lib.py is not part of the sources; the
    design document fixes the input width at [note_range + 14 + 2 * 12] and
    the number of classes at [note_range + 4], hence twelve notes per
    octave and two special events. *)
Definition NOTES_PER_OCTAVE : Z := 12.
Definition NUM_SPECIAL_EVENTS : Z := 2.

(** Modelled from the spec: the melody container, an ordered sequence of
    integer event codes held in the attribute [events]. *)
Record MonophonicMelody : Type := { events : list Z }.

(** Modelled from the spec: [len(melody)], the number of events. *)
Definition __len__ (melody : MonophonicMelody) : Z := len (events melody).

(** Modelled from the spec: the base encoder/decoder, whose constructor
    stores the pitch window and the transposition key. *)
Record MelodyEncoderDecoder : Type := {
  min_note : Z;
  max_note : Z;
  transpose_to_key : Z
}.

Definition __init__ (min_note max_note transpose_to_key : Z)
    : MelodyEncoderDecoder :=
  {| min_note := min_note; max_note := max_note;
     transpose_to_key := transpose_to_key |}.

End melodies_lib.

(** * attention_rnn_encoder_decoder.py *)

Module attention_rnn.
Import Py.
Import melodies_lib (NOTES_PER_OCTAVE, NUM_SPECIAL_EVENTS, MonophonicMelody,
                     events, Build_MonophonicMelody).

Definition STEPS_PER_BAR : Z := 16.
Definition MIN_NOTE : Z := 48.
Definition MAX_NOTE : Z := 84.
Definition TRANSPOSE_TO_KEY : Z := 0.
Definition NUM_SPECIAL_INPUTS : Z := 14 + NOTES_PER_OCTAVE * 2.
Definition NUM_SPECIAL_CLASSES : Z := 2.
Definition NUM_BINARY_TIME_COUNTERS : Z := 7.

(** The float literals [0.0], [1.0] and [-1.0]. *)
Definition f0 : float := S754_zero false.
Definition f1 : float := S754_finite false 4503599627370496 (-52).
Definition fm1 : float := S754_finite true 4503599627370496 (-52).

(** The derived class: the attributes of the base class and
    [note_range]. *)
Record MelodyEncoderDecoder : Type := {
  super : melodies_lib.MelodyEncoderDecoder;
  note_range : Z
}.

Definition min_note (self : MelodyEncoderDecoder) : Z :=
  melodies_lib.min_note (super self).
Definition max_note (self : MelodyEncoderDecoder) : Z :=
  melodies_lib.max_note (super self).

Definition __init__ : MelodyEncoderDecoder :=
  let base := melodies_lib.__init__ MIN_NOTE MAX_NOTE TRANSPOSE_TO_KEY in
  {| super := base;
     note_range := melodies_lib.max_note base - melodies_lib.min_note base |}.

Definition input_size (self : MelodyEncoderDecoder) : Z :=
  note_range self + NUM_SPECIAL_INPUTS.

Definition num_classes (self : MelodyEncoderDecoder) : Z :=
  note_range self + NUM_SPECIAL_EVENTS + NUM_SPECIAL_CLASSES.

(** Python's short-circuit [and] and [or] over tests that may raise. *)
Definition py_and (a b : result bool) : result bool :=
  let+ x := a in if x then b else Ok false.
Definition py_or (a b : result bool) : result bool :=
  let+ x := a in if x then Ok true else b.

(** ** [collections.deque(maxlen=3)] *)

(** [d.remove(x)]: the first occurrence goes. *)
Fixpoint deque_remove (x : Z) (d : list Z) : list Z :=
  match d with
  | [] => []
  | y :: d' => if y =? x then d' else y :: deque_remove x d'
  end.

(** [d.append(x)] on a deque bounded by [maxlen]: the oldest entries are
    discarded from the left. *)
Definition deque_append (maxlen : nat) (d : list Z) (x : Z) : list Z :=
  let d' := d ++ [x] in skipn (length d' - maxlen) d'.

(** [x in d] *)
Definition contains (x : Z) (d : list Z) : bool := existsb (Z.eqb x) d.

Section Codec.

(** The two sentinel event codes of melodies_lib, whose values the
    design document leaves open. *)
Variables NOTE_OFF NO_EVENT : Z.

(** [melody.get_major_key_histogram()], a query of the melody container
    that reads its event list. *)
Variable get_major_key_histogram : list Z -> list Z.

(** The locals of the scan over [melody.events]. *)
Record scan : Type := {
  current_note : option Z;
  is_attack : bool;
  is_ascending : option bool;
  last_3_notes : list Z
}.

Definition scan_init : scan :=
  {| current_note := None; is_attack := false; is_ascending := None;
     last_3_notes := [] |}.

(** The body of [for note in melody.events]. *)
Definition scan_step (st : scan) (note : Z) : scan :=
  if note =? NO_EVENT then
    {| current_note := current_note st; is_attack := false;
       is_ascending := is_ascending st; last_3_notes := last_3_notes st |}
  else if note =? NOTE_OFF then
    {| current_note := None; is_attack := is_attack st;
       is_ascending := is_ascending st; last_3_notes := last_3_notes st |}
  else
    let asc :=
      match last (last_3_notes st) with
      | Some prev =>
          let asc := if prev <? note then Some true else is_ascending st in
          if note <? prev then Some false else asc
      | None => is_ascending st
      end in
    let d := if contains note (last_3_notes st)
             then deque_remove note (last_3_notes st)
             else last_3_notes st in
    {| current_note := Some note; is_attack := true; is_ascending := asc;
       last_3_notes := deque_append 3 d note |}.

(** [ev[-1] == ev[-(k + 1)]], guarded by [guard]. *)
Definition repeats (guard : bool) (ev : list Z) (k : Z) : result bool :=
  py_and (Ok guard)
         (let+ a := getitem ev (-1) in
          let+ b := getitem ev (- (k + 1)) in
          Ok (a =? b)).

(** [for i in range(NUM_BINARY_TIME_COUNTERS)], from [i] on, [fuel]
    iterations; the division is the integer division of Python 2. *)
Fixpoint time_counters (self : MelodyEncoderDecoder) (n : Z) (fuel : nat)
    (i : Z) (input_ : list float) : result (list float) :=
  match fuel with
  | O => Ok input_
  | S fuel' =>
      let+ input_ :=
        setitem input_ (note_range self + 6 + i)
                (if ((n / 2 ^ i) mod 2 =? 0) then fm1 else f1) in
      time_counters self n fuel' (i + 1) input_
  end.

(** [for i, key_val in enumerate(key_histogram)], from index [i] on. *)
Fixpoint mark_keys (offset : Z) (max_val : Z) (key_histogram : list Z)
    (i : Z) (input_ : list float) : result (list float) :=
  match key_histogram with
  | [] => Ok input_
  | key_val :: rest =>
      let+ input_ :=
        (if key_val =? max_val then setitem input_ (offset + i) f1
         else Ok input_) in
      mark_keys offset max_val rest (i + 1) input_
  end.

(** [melody.events = v]: the attribute is bound to another list; no list
    is changed in place, so a list stands for the object it denotes. *)
Definition set_events (v : list Z) (melody : MonophonicMelody)
    : MonophonicMelody := {| events := v |}.

Definition melody_to_input (self : MelodyEncoderDecoder)
    : M MonophonicMelody (list float) :=
  let* melody := get in
  let st := fold_left scan_step (events melody) scan_init in
  let input_ := list_repeat f0 (input_size self) in
  let* input_ :=
    lift (match current_note st with
          | Some current_note =>
              if current_note =? 0 then
                setitem input_ (note_range self + 1) f1
              else
                let+ input_ :=
                  setitem input_ (current_note - min_note self) f1 in
                setitem input_ (note_range self) f1
          | None => setitem input_ (note_range self + 1) f1
          end) in
  let* input_ :=
    lift (if is_attack st then setitem input_ (note_range self + 2) f1
          else Ok input_) in
  let* input_ :=
    lift (match is_ascending st with
          | Some asc =>
              setitem input_ (note_range self + 3) (if asc then f1 else fm1)
          | None => Ok input_
          end) in
  let* rep1 :=
    lift (repeats (STEPS_PER_BAR + 1 <=? melodies_lib.__len__ melody)
                  (events melody) STEPS_PER_BAR) in
  let* input_ :=
    lift (if rep1 then setitem input_ (note_range self + 4) f1
          else Ok input_) in
  let* rep2 :=
    lift (repeats (2 * STEPS_PER_BAR + 1 <=? melodies_lib.__len__ melody)
                  (events melody) (2 * STEPS_PER_BAR)) in
  let* input_ :=
    lift (if rep2 then setitem input_ (note_range self + 5) f1
          else Ok input_) in
  let n := melodies_lib.__len__ melody in
  let* input_ :=
    lift (time_counters self n (Z.to_nat NUM_BINARY_TIME_COUNTERS) 0 input_) in
  let* input_ :=
    lift (if melodies_lib.__len__ melody mod STEPS_PER_BAR =? 0
          then setitem input_ (note_range self + 13) f1
          else Ok input_) in
  let* melody := get in
  let key_histogram := get_major_key_histogram (events melody) in
  let* max_val := lift (max_of key_histogram) in
  let* input_ :=
    lift (mark_keys (note_range self + 14) max_val key_histogram 0 input_) in
  let* melody := get in
  let melody_events_backup := events melody in
  modify (set_events (last_3_notes st)) ;;;
  let* melody := get in
  let key_histogram := get_major_key_histogram (events melody) in
  let* max_val := lift (max_of key_histogram) in
  let* input_ :=
    lift (mark_keys (note_range self + 14 + NOTES_PER_OCTAVE) max_val
                    key_histogram 0 input_) in
  modify (set_events melody_events_backup) ;;;
  ret input_.

Definition melody_to_label (self : MelodyEncoderDecoder)
    (melody : MonophonicMelody) : result Z :=
  let ev := events melody in
  let+ repeated2 :=
    py_or (py_and (Ok (len ev <=? 2 * STEPS_PER_BAR))
                  (let+ a := getitem ev (-1) in Ok (a =? NO_EVENT)))
          (repeats (2 * STEPS_PER_BAR <? len ev) ev (2 * STEPS_PER_BAR)) in
  if repeated2 then Ok (note_range self + 3) else
  let+ repeated1 := repeats (STEPS_PER_BAR <? len ev) ev STEPS_PER_BAR in
  if repeated1 then Ok (note_range self + 2) else
  let+ a := getitem ev (-1) in
  if a =? NOTE_OFF then Ok (note_range self + 1) else
  let+ a := getitem ev (-1) in
  if a =? NO_EVENT then Ok (note_range self) else
  let+ a := getitem ev (-1) in
  Ok (a - min_note self).

Definition class_index_to_melody_event (self : MelodyEncoderDecoder)
    (class_index : Z) (melody : MonophonicMelody) : result Z :=
  if class_index =? note_range self + 3 then
    if melodies_lib.__len__ melody <? 2 * STEPS_PER_BAR then Ok NO_EVENT
    else getitem (events melody) (- (2 * STEPS_PER_BAR))
  else if class_index =? note_range self + 2 then
    if melodies_lib.__len__ melody <? STEPS_PER_BAR then Ok NO_EVENT
    else getitem (events melody) (- STEPS_PER_BAR)
  else if class_index =? note_range self + 1 then Ok NOTE_OFF
  else if class_index =? note_range self then Ok NO_EVENT
  else Ok (min_note self + class_index).

(** ** Auxiliary definitions for the statements below *)

(** The event [k] steps before the last one, when the history is longer
    than [k]. *)
Definition back (ev : list Z) (k : nat) : option Z :=
  if (k <? length ev)%nat then ev !! (length ev - 1 - k)%nat else None.

(** The decision list of the labelling, for a history [ev] whose last
    event is [a]; [short_history] is the test under which a no-event
    counts as a repeat from two bars ago. *)
Definition label_rule (short_history : bool) (self : MelodyEncoderDecoder)
    (ev : list Z) (a : Z) : Z :=
  if (short_history && (a =? NO_EVENT))
     || bool_decide (back ev (2 * 16) = Some a)
  then note_range self + 3
  else if bool_decide (back ev 16 = Some a) then note_range self + 2
  else if a =? NOTE_OFF then note_range self + 1
  else if a =? NO_EVENT then note_range self
  else a - min_note self.

(** The first assignments of [melody_to_input], on the sounding pitch
    [c] found by the scan: the block under [if current_note:]. *)
Definition current_note_slots (self : MelodyEncoderDecoder) (c : option Z)
    (input_ : list float) : result (list float) :=
  match c with
  | Some current_note =>
      if current_note =? 0 then setitem input_ (note_range self + 1) f1
      else
        let+ input_ := setitem input_ (current_note - min_note self) f1 in
        setitem input_ (note_range self) f1
  | None => setitem input_ (note_range self + 1) f1
  end.

(** What the later assignments of [melody_to_input] leave alone: the
    slots below [note_range + 2], and every key-indicator slot that
    already holds [1.0]. *)
Definition keeps (self : MelodyEncoderDecoder) (l l' : list float) : Prop :=
  forall k : nat,
    (Z.of_nat k < note_range self + 2 -> l' !! k = l !! k) /\
    (note_range self + 14 <= Z.of_nat k ->
     l !! k = Some f1 -> l' !! k = Some f1).

(** The vector of a melody that is silent at its end: the silence slot is
    set, the any-note slot and all pitch slots are clear. *)
Definition silence_active (self : MelodyEncoderDecoder) (v : list float)
    : Prop :=
  v !! Z.to_nat (note_range self + 1) = Some f1 /\
  forall i, 0 <= i <= note_range self -> v !! Z.to_nat i = Some f0.

(** The vector of a melody whose sounding pitch is [p]: the any-note slot
    is set; the slot [j] that the index [p - min_note] denotes is the only
    pitch slot that may be set, and it is set when it is a pitch slot or
    a key-indicator slot. *)
Definition note_active (self : MelodyEncoderDecoder) (p : Z)
    (v : list float) : Prop :=
  let j := wrap (input_size self) (p - min_note self) in
  v !! Z.to_nat (note_range self) = Some f1 /\
  (forall i, 0 <= i < note_range self -> i <> j ->
             v !! Z.to_nat i = Some f0) /\
  (j < note_range self + 2 \/ note_range self + 14 <= j ->
   v !! Z.to_nat j = Some f1).

(** The part of [melody_to_input] that precedes the substitution of the
    event list, as a function of the events. *)
Definition features (self : MelodyEncoderDecoder) (ev : list Z)
    : result (list float) :=
  let st := fold_left scan_step ev scan_init in
  let input_ := list_repeat f0 (input_size self) in
  let+ input_ := current_note_slots self (current_note st) input_ in
  let+ input_ :=
    if is_attack st then setitem input_ (note_range self + 2) f1
    else Ok input_ in
  let+ input_ :=
    match is_ascending st with
    | Some asc => setitem input_ (note_range self + 3) (if asc then f1 else fm1)
    | None => Ok input_
    end in
  let+ rep1 := repeats (STEPS_PER_BAR + 1 <=? len ev) ev STEPS_PER_BAR in
  let+ input_ :=
    if rep1 then setitem input_ (note_range self + 4) f1 else Ok input_ in
  let+ rep2 :=
    repeats (2 * STEPS_PER_BAR + 1 <=? len ev) ev (2 * STEPS_PER_BAR) in
  let+ input_ :=
    if rep2 then setitem input_ (note_range self + 5) f1 else Ok input_ in
  let+ input_ :=
    time_counters self (len ev) (Z.to_nat NUM_BINARY_TIME_COUNTERS) 0 input_ in
  let+ input_ :=
    if len ev mod STEPS_PER_BAR =? 0
    then setitem input_ (note_range self + 13) f1 else Ok input_ in
  let+ max_val := max_of (get_major_key_histogram ev) in
  mark_keys (note_range self + 14) max_val (get_major_key_histogram ev) 0
            input_.

(** The part between the substitution and the restoration. *)
Definition last_3_keys (self : MelodyEncoderDecoder) (last_3 : list Z)
    (input_ : list float) : result (list float) :=
  let+ max_val := max_of (get_major_key_histogram last_3) in
  mark_keys (note_range self + 14 + NOTES_PER_OCTAVE) max_val
            (get_major_key_histogram last_3) 0 input_.

(** The labelling as the design document words it: the no-event rule
    applies when the history is shorter than two bars. *)
Definition label_as_stated (self : MelodyEncoderDecoder) (ev : list Z)
    (a : Z) : Z :=
  label_rule (len ev <? 2 * STEPS_PER_BAR) self ev a.

End Codec.

(** ** The assignments of [melody_to_input] as a list

    Every statement [input_[i] = x] of the method, in the order of
    execution, as a pair [(i, x)]. *)

(** Carrying out a list of assignments. *)
Fixpoint apply_writes (ws : list (Z * float)) (l : list float)
    : result (list float) :=
  match ws with
  | [] => Ok l
  | (i, x) :: ws' => let+ l := setitem l i x in apply_writes ws' l
  end.

(** The value the last assignment to index [k] gives, if there is one. *)
Fixpoint last_write (ws : list (Z * float)) (k : Z) : option float :=
  match ws with
  | [] => None
  | (i, x) :: ws' =>
      match last_write ws' k with
      | Some y => Some y
      | None => if i =? k then Some x else None
      end
  end.

(** An assignment under a condition. *)
Definition flag_write (b : bool) (i : Z) (x : float) : list (Z * float) :=
  if b then [(i, x)] else [].

Definition current_writes (self : MelodyEncoderDecoder) (c : option Z)
    : list (Z * float) :=
  match c with
  | Some p =>
      if p =? 0 then [(note_range self + 1, f1)]
      else [(p - min_note self, f1); (note_range self, f1)]
  | None => [(note_range self + 1, f1)]
  end.

Definition direction_writes (self : MelodyEncoderDecoder)
    (asc : option bool) : list (Z * float) :=
  match asc with
  | Some asc => [(note_range self + 3, if asc then f1 else fm1)]
  | None => []
  end.

Fixpoint counter_writes (self : MelodyEncoderDecoder) (n : Z) (fuel : nat)
    (i : Z) : list (Z * float) :=
  match fuel with
  | O => []
  | S fuel' =>
      (note_range self + 6 + i, if (n / 2 ^ i) mod 2 =? 0 then fm1 else f1)
      :: counter_writes self n fuel' (i + 1)
  end.

Fixpoint key_writes (offset max_val : Z) (key_histogram : list Z) (i : Z)
    : list (Z * float) :=
  match key_histogram with
  | [] => []
  | key_val :: rest =>
      flag_write (key_val =? max_val) (offset + i) f1
      ++ key_writes offset max_val rest (i + 1)
  end.

(** The last event equals the event [k] steps before it. *)
Definition repeated (ev : list Z) (k : nat) : bool :=
  match last ev with
  | Some a => bool_decide (back ev k = Some a)
  | None => false
  end.

(** The largest entry of a non-empty list. *)
Definition maximum (l : list Z) : Z := fold_left Z.max (tail l) (hd 0 l).

(** All assignments of one call, for the locals [st] of the scan over
    the events [ev] and the two key histograms. *)
Definition encoder_writes (self : MelodyEncoderDecoder) (st : scan)
    (ev : list Z) (keys keys_3 : list Z) : list (Z * float) :=
  current_writes self (current_note st)
  ++ flag_write (is_attack st) (note_range self + 2) f1
  ++ direction_writes self (is_ascending st)
  ++ flag_write (repeated ev 16) (note_range self + 4) f1
  ++ flag_write (repeated ev 32) (note_range self + 5) f1
  ++ counter_writes self (len ev) 7 0
  ++ flag_write (len ev mod STEPS_PER_BAR =? 0) (note_range self + 13) f1
  ++ key_writes (note_range self + 14) (maximum keys) keys 0
  ++ key_writes (note_range self + 14 + NOTES_PER_OCTAVE) (maximum keys_3)
                keys_3 0.

(** The sounding pitch is absent, 0, or a pitch of the window. *)
Definition in_window (self : MelodyEncoderDecoder) (c : option Z) : Prop :=
  match c with
  | Some p => p = 0 \/ min_note self <= p < min_note self + note_range self
  | None => True
  end.

(** The three values an entry of the input vector can have. *)
Definition is_feature_value (x : float) : Prop := x = f0 \/ x = f1 \/ x = fm1.

End attention_rnn.

(** * A concrete instance of the imported parts

    Used to run the codec on concrete melodies. *)

Module instance.
Import Py.

(** Modelled from the spec: the two reserved sentinel codes; any two
    distinct negative codes serve, pitches being MIDI-style values. *)
Definition NOTE_OFF : Z := -1.
Definition NO_EVENT : Z := -2.

Definition major_scale : list Z := [0; 2; 4; 5; 7; 9; 11].

(** Modelled from the spec: the key-histogram query, a 12-bin count of how
    many pitches of the event list lie in each of the twelve major keys. *)
Definition get_major_key_histogram (events : list Z) : list Z :=
  map (fun key =>
         len (List.filter (fun e => (0 <=? e) &&
                               existsb (Z.eqb ((e - key) mod 12)) major_scale)
                     events))
      [0; 1; 2; 3; 4; 5; 6; 7; 8; 9; 10; 11].

Definition melody_to_input :=
  attention_rnn.melody_to_input NOTE_OFF NO_EVENT get_major_key_histogram.
Definition melody_to_label := attention_rnn.melody_to_label NOTE_OFF NO_EVENT.
Definition class_index_to_melody_event :=
  attention_rnn.class_index_to_melody_event NOTE_OFF NO_EVENT.
Definition label_rule := attention_rnn.label_rule NOTE_OFF NO_EVENT.
Definition label_as_stated := attention_rnn.label_as_stated NOTE_OFF NO_EVENT.

Definition melody (events : list Z) : melodies_lib.MonophonicMelody :=
  {| melodies_lib.events := events |}.

(** A history of exactly two bars that ends in a no-event. *)
Definition two_bars_then_rest : list Z := repeat 60 31 ++ [NO_EVENT].

(** A history in which the last event repeats both the event one bar and
    the event two bars earlier. *)
Definition same_for_two_bars : list Z := repeat 60 33.

End instance.

(** * Concrete inputs *)

Module examples.
Import Py.

(** [n / d] as a float; exact for the dyadic values used below. *)
Definition ratio (n d : Z) : float := fdiv (f_of_Z n) (f_of_Z d).

Definition note (pitch velocity : Z) (start_time end_time : float)
    (instrument : Z) : music_pb2.Note :=
  {| music_pb2.pitch := pitch; music_pb2.velocity := velocity;
     music_pb2.start_time := start_time; music_pb2.end_time := end_time;
     music_pb2.instrument := instrument; music_pb2.program := 0 |}.

Definition qnote (pitch velocity start end_ instrument : Z)
    : sequences_lib.Note :=
  {| sequences_lib.pitch := pitch; sequences_lib.velocity := velocity;
     sequences_lib.start := start; sequences_lib.end_ := end_;
     sequences_lib.instrument := instrument; sequences_lib.program := 0 |}.

Definition sequence (notes : list music_pb2.Note) (bpm : Z)
    (signatures : list (Z * Z)) : music_pb2.NoteSequence :=
  {| music_pb2.notes := notes;
     music_pb2.tempos := [ {| music_pb2.bpm := f_of_Z bpm |} ];
     music_pb2.time_signatures :=
       map (fun nd => {| music_pb2.numerator := fst nd;
                         music_pb2.denominator := snd nd |}) signatures |}.

(** A note that starts a quarter of a second before time zero, at 60 bpm
    in 4/4. *)
Definition early_note : music_pb2.NoteSequence :=
  sequence [note 60 100 (ratio (-1) 4) (f_of_Z 1) 0] 60 [(4, 4)].

(** A good note followed by one that starts half a second before time
    zero. *)
Definition good_then_bad : music_pb2.NoteSequence :=
  sequence [note 60 100 (f_of_Z 1) (f_of_Z 2) 0;
            note 62 100 (ratio (-1) 2) (f_of_Z 1) 0] 60 [(4, 4)].

(** Two time signatures; a single one whose denominator is 3. *)
Definition two_signatures : music_pb2.NoteSequence :=
  sequence [] 60 [(4, 4); (3, 4)].

Definition four_over_three : music_pb2.NoteSequence :=
  sequence [] 60 [(4, 3)].

(** A note of 1/16 s at 60 bpm and four steps per beat: both ends fall on
    step 16. *)
Definition short_note : music_pb2.NoteSequence :=
  sequence [note 55 120 (f_of_Z 4) (ratio 65 16) 0;
            note 40 45 (ratio 5 2) (ratio 7 2) 0] 60 [(4, 4)].

(** Two sequences that differ in their tracks only. *)
Definition no_tracks : sequences_lib.QuantizedSequence :=
  sequences_lib.__init__.
Definition one_track : sequences_lib.QuantizedSequence :=
  sequences_lib.set_tracks (<[0 := [qnote 12 100 0 40 0]]> ∅)
                           sequences_lib.__init__.

End examples.

(** * Facts about the quantizer *)

Module sequences_lib_facts.
Import Py sequences_lib.

#[local] Arguments is_power_of_2 : simpl never.
#[local] Arguments f_of_Z : simpl never.
#[local] Arguments steps_per_second : simpl never.

(** ** The loop over the notes *)

Lemma quantize_note_into_spec sps note self :
  quantize_note_into sps note self =
  match quantized sps note with
  | Ok q => (Ok tt, set_tracks (file_note (tracks self) q) self)
  | Raise e => (Raise e, self)
  end.
Proof.
  unfold quantize_note_into, quantized, bind, lift, rbind.
  destruct (quantize (fmul (music_pb2.start_time note) sps)) as [s|]; [|done].
  destruct (quantize (fmul (music_pb2.end_time note) sps)) as [e|]; [|done].
  destruct ((s <? 0) || _); [done|].
  unfold ret, get, modify, file_note; cbn.
  destruct (decide (is_Some (tracks self !! music_pb2.instrument note)));
    reflexivity.
Qed.

Lemma set_tracks_twice tr tr' self :
  set_tracks tr (set_tracks tr' self) = set_tracks tr self.
Proof. reflexivity. Qed.

Lemma set_tracks_id self : set_tracks (tracks self) self = self.
Proof. by destruct self. Qed.

Lemma for_each_notes sps notes self :
  for_each notes (quantize_note_into sps) self =
  (match snd (quantized_prefix sps notes) with
   | None => Ok tt
   | Some e => Raise e
   end,
   set_tracks (foldl file_note (tracks self)
                     (fst (quantized_prefix sps notes))) self).
Proof.
  revert self; induction notes as [|note rest IH]; intros self; cbn.
  - by rewrite set_tracks_id.
  - unfold bind at 1. rewrite quantize_note_into_spec.
    destruct (quantized sps note) as [q|e]; cbn.
    + rewrite IH. destruct (quantized_prefix sps rest) as [qs e]; cbn.
      by rewrite set_tracks_twice.
    + by rewrite set_tracks_id.
Qed.

(** ** Grouping by instrument *)

Lemma file_note_lookup tr q k :
  file_note tr q !! k =
  if decide (k = instrument q)
  then Some (default [] (tr !! k) ++ [q])
  else tr !! k.
Proof.
  unfold file_note. destruct (decide (k = instrument q)) as [->|Hne].
  - rewrite lookup_alter_eq.
    destruct (decide (is_Some (tr !! instrument q))) as [[l Hl]|Hno].
    + by rewrite Hl.
    + rewrite lookup_insert_eq. apply eq_None_not_Some in Hno.
      by rewrite Hno.
  - rewrite lookup_alter_ne by done.
    destruct (decide (is_Some (tr !! instrument q))); [done|].
    by rewrite lookup_insert_ne.
Qed.

Lemma foldl_file_note_lookup qs tr k :
  foldl file_note tr qs !! k =
  match filter (fun q => instrument q = k) qs with
  | [] => tr !! k
  | l => Some (default [] (tr !! k) ++ l)
  end.
Proof.
  revert tr; induction qs as [|q qs IH]; intros tr; [done|].
  rewrite filter_cons. cbn [foldl]. rewrite IH, file_note_lookup.
  destruct (decide (instrument q = k)) as [<-|Hne].
  - rewrite decide_True by done. cbn.
    destruct (filter _ qs) as [|q' l]; [done|].
    by rewrite <- app_assoc.
  - rewrite decide_False by done. done.
Qed.

(** ** The whole load, case by case *)

Lemma from_note_sequence_cases ns spb self :
  from_note_sequence ns spb self =
  if 1 <? len (music_pb2.time_signatures ns)
  then (Raise MultipleTimeSignatureException, after_reset spb)
  else
    let s1 := set_time_signature (adopted_time_signature ns)
                                 (after_reset spb) in
    if negb (is_power_of_2 (denominator (adopted_time_signature ns)))
    then (Raise BadTimeSignatureException, s1)
    else
      let s2 := set_bpm (adopted_bpm ns) s1 in
      match steps_per_second spb (adopted_bpm ns) with
      | Raise e => (Raise e, s2)
      | Ok sps =>
          (match snd (quantized_prefix sps (music_pb2.notes ns)) with
           | None => Ok tt
           | Some e => Raise e
           end,
           set_tracks
             (foldl file_note ∅
                    (fst (quantized_prefix sps (music_pb2.notes ns)))) s2)
      end.
Proof.
  unfold from_note_sequence, _reset, adopted_time_signature, adopted_bpm.
  unfold bind, modify, raise, ret, get, lift; cbn.
  destruct (1 <? len (music_pb2.time_signatures ns)); [reflexivity|].
  destruct (music_pb2.time_signatures ns) as [|ts0 ?]; cbn.
  - change (is_power_of_2 4) with true; cbn.
    destruct (steps_per_second spb _) as [sps|e]; [|reflexivity].
    by rewrite for_each_notes.
  - destruct (is_power_of_2 (music_pb2.denominator ts0)); [|reflexivity]; cbn.
    destruct (steps_per_second spb _) as [sps|e]; [|reflexivity].
    by rewrite for_each_notes.
Qed.

(** ** One note *)

Lemma quantized_Ok sps note q :
  quantized sps note = Ok q ->
  exists s e,
    quantize (fmul (music_pb2.start_time note) sps) = Ok s /\
    quantize (fmul (music_pb2.end_time note) sps) = Ok e /\
    0 <= s /\ 0 <= (if e =? s then s + 1 else e) /\
    q = {| pitch := music_pb2.pitch note;
           velocity := music_pb2.velocity note;
           start := s; end_ := if e =? s then s + 1 else e;
           instrument := music_pb2.instrument note;
           program := music_pb2.program note |}.
Proof.
  unfold quantized, rbind.
  destruct (quantize (fmul (music_pb2.start_time note) sps)) as [s|]; [|done].
  destruct (quantize (fmul (music_pb2.end_time note) sps)) as [e|]; [|done].
  destruct (Z.eqb_spec e s) as [->|Hne].
  - destruct ((s <? 0) || (s + 1 <? 0)) eqn:Hneg; [done|].
    intros [= <-]. apply orb_false_iff in Hneg as [?%Z.ltb_ge ?%Z.ltb_ge].
    exists s, s. rewrite Z.eqb_refl. done.
  - destruct ((s <? 0) || (e <? 0)) eqn:Hneg; [done|].
    intros [= <-]. apply orb_false_iff in Hneg as [?%Z.ltb_ge ?%Z.ltb_ge].
    exists s, e. rewrite (proj2 (Z.eqb_neq e s)) by done. done.
Qed.

(** A negative step, before or after the widening, is a bad note. *)
Lemma quantized_negative sps note s e :
  quantize (fmul (music_pb2.start_time note) sps) = Ok s ->
  quantize (fmul (music_pb2.end_time note) sps) = Ok e ->
  s < 0 \/ e < 0 ->
  quantized sps note = Raise BadNoteException.
Proof.
  intros Hs He Hneg. unfold quantized, rbind. rewrite Hs, He.
  destruct (Z.eqb_spec e s) as [->|Hne].
  - assert ((s <? 0) = true) as -> by (apply Z.ltb_lt; lia). done.
  - destruct Hneg as [H|H]; apply Z.ltb_lt in H; rewrite H;
      [done | by rewrite orb_true_r].
Qed.

(** The widening does not change the outcome of the test for negative
    steps, whether it comes before or after it. *)
Lemma negative_test_widened s e :
  (s <? 0) || ((if e =? s then e + 1 else e) <? 0) = (s <? 0) || (e <? 0).
Proof.
  destruct (Z.eqb_spec e s) as [->|_]; [|done].
  destruct (Z.ltb_spec s 0), (Z.ltb_spec (s + 1) 0); cbn; try done; lia.
Qed.

(** When both steps of a note are computed, the note is filed or it is a
    bad note; no other exception arises. *)
Lemma quantized_computed sps note s e :
  quantize (fmul (music_pb2.start_time note) sps) = Ok s ->
  quantize (fmul (music_pb2.end_time note) sps) = Ok e ->
  (exists q, quantized sps note = Ok q) \/
  quantized sps note = Raise BadNoteException.
Proof.
  intros Hs He. unfold quantized, rbind. rewrite Hs, He.
  destruct ((s <? 0) || _); eauto.
Qed.

(** ** The notes filed before the first exception *)

Lemma quantized_prefix_complete sps notes :
  snd (quantized_prefix sps notes) = None ->
  forall note, note ∈ notes ->
    exists q, quantized sps note = Ok q /\
              q ∈ fst (quantized_prefix sps notes).
Proof.
  induction notes as [|n rest IH]; cbn; intros Hnone note Hin.
  - by apply elem_of_nil in Hin.
  - destruct (quantized sps n) as [q|e] eqn:Hq; [|done].
    destruct (quantized_prefix sps rest) as [qs e] eqn:Hrest.
    cbn in *. apply elem_of_cons in Hin as [->|Hin].
    + exists q. split; [done | apply elem_of_cons; by left].
    + destruct (IH Hnone note Hin) as (q' & ? & ?).
      exists q'. split; [done | apply elem_of_cons; by right].
Qed.

(** The prefix is the image of an initial segment of the input, and the
    exception is the one of the note that follows it. *)
Lemma quantized_prefix_split sps notes e :
  snd (quantized_prefix sps notes) = Some e ->
  exists pre note post,
    notes = pre ++ note :: post /\
    Forall2 (fun n q => quantized sps n = Ok q) pre
            (fst (quantized_prefix sps notes)) /\
    quantized sps note = Raise e.
Proof.
  induction notes as [|n rest IH]; cbn; [done|].
  destruct (quantized sps n) as [q|e'] eqn:Hq.
  - destruct (quantized_prefix sps rest) as [qs e''] eqn:Hrest. cbn in *.
    intros He. destruct (IH He) as (pre & note & post & -> & Hall & Hbad).
    exists (n :: pre), note, post. split; [done|]. split; [|done].
    by constructor.
  - cbn. intros [= ->]. exists [], n, rest. split; [done|].
    split; [constructor | done].
Qed.

Lemma quantized_prefix_bad sps pre note post :
  (forall n, n ∈ pre ->
     (exists q, quantized sps n = Ok q) \/
     quantized sps n = Raise BadNoteException) ->
  quantized sps note = Raise BadNoteException ->
  snd (quantized_prefix sps (pre ++ note :: post)) = Some BadNoteException.
Proof.
  intros Hpre Hbad. induction pre as [|n pre IH]; cbn.
  - by rewrite Hbad.
  - destruct (Hpre n) as [[q Hq]|Hq]; [apply elem_of_cons; by left| |].
    + rewrite Hq.
      destruct (quantized_prefix sps (pre ++ note :: post)) as [qs e].
      cbn in *. apply IH. intros n' Hn'. apply Hpre, elem_of_cons. by right.
    + by rewrite Hq.
Qed.

Lemma filed_lookup qs q :
  q ∈ qs ->
  exists l, foldl file_note ∅ qs !! instrument q = Some l /\ q ∈ l.
Proof.
  intros Hin. rewrite foldl_file_note_lookup, lookup_empty. cbn.
  assert (q ∈ filter (fun q' => instrument q' = instrument q) qs) as Hf
    by (apply list_elem_of_filter; done).
  destruct (filter _ qs) as [|q' l]; [by apply elem_of_nil in Hf|].
  eauto.
Qed.

(** ** Rounding *)

(** [int()] and the floor agree on every float that is not negative. *)
Lemma int_of_float_floor_nonneg x :
  SFltb x (S754_zero false) = false ->
  int_of_float x = floor_of_float x.
Proof.
  destruct x as [s|s| |s m e]; try reflexivity.
  destruct s; [discriminate|]. intros _. by destruct e.
Qed.

(** Hence [quantize] is the half-up rule whenever the float sum
    [x + 0.5] is not negative. *)
Lemma quantize_floor_nonneg x :
  SFltb (fadd x (fsub (f_of_Z 1) QUANTIZE_CUTOFF)) (S754_zero false) = false ->
  quantize x = quantize_floor x.
Proof. apply int_of_float_floor_nonneg. Qed.

(** On a negative float [int()] rounds toward zero, that is, up. *)
Lemma int_of_float_negative m e :
  int_of_float (S754_finite true m e) =
  rbind (floor_of_float (S754_finite false m e)) (fun z => Ok (- z)).
Proof. by destruct e. Qed.

(** C1, at the input on which the code departs from it: a note starting
    at -0.25 s, at 60 bpm and 4 steps per beat, lies at -1.0 steps; the
    half-up rule [floor(-1.0 + 0.5)] gives step -1, but the code computes
    [int(-0.5) = 0], so the load accepts the note and files it at step 0
    instead of rejecting its negative time. *)
Theorem quantize_truncates_negative_time :
  steps_per_second 4 (f_of_Z 60) = Ok (f_of_Z 4) /\
  let x := fmul (examples.ratio (-1) 4) (f_of_Z 4) in
  quantize x = Ok 0 /\
  quantize_floor x = Ok (-1) /\
  fst (from_note_sequence examples.early_note 4 __init__) = Ok tt /\
  tracks (snd (from_note_sequence examples.early_note 4 __init__)) !! 0
    = Some [examples.qnote 60 100 0 4 0].
Proof. vm_compute. repeat split; reflexivity. Qed.

(** ** Equality *)

Lemma set_eqb_spec l1 l2 :
  set_eqb l1 l2 = true <-> (forall x, x ∈ l1 <-> x ∈ l2).
Proof.
  unfold set_eqb. rewrite andb_true_iff, !bool_decide_eq_true.
  split.
  - intros [H1 H2] x. split; [apply H1 | apply H2].
  - intros H. split; intros x Hx; by apply H.
Qed.

(** What [__eq__] decides: every track of the left operand is a track of
    the right one with the same set of notes, and the three scalar
    attributes agree. *)
Lemma eq_spec a b :
  __eq__ a b = true <->
  (forall k l, tracks a !! k = Some l ->
     exists l', tracks b !! k = Some l' /\ forall x, x ∈ l <-> x ∈ l') /\
  feqb (bpm a) (bpm b) = true /\
  time_signature a = time_signature b /\
  steps_per_beat a = steps_per_beat b.
Proof.
  unfold __eq__. case_bool_decide as Hex.
  - split; [discriminate|]. intros [Htr _]. exfalso.
    destruct Hex as (k & l & Hl & Hd). unfold track_differs in Hd.
    destruct (Htr k l Hl) as (l' & Hl' & Hset). rewrite Hl' in Hd.
    apply set_eqb_spec in Hset. by rewrite Hset in Hd.
  - rewrite !andb_true_iff, bool_decide_eq_true, Z.eqb_eq.
    split.
    + intros [[? ?] ?]. split; [|done]. intros k l Hl.
      destruct (tracks b !! k) as [l'|] eqn:Hl'.
      * exists l'. split; [done|]. apply set_eqb_spec.
        destruct (set_eqb l l') eqn:E; [done|]. exfalso. apply Hex.
        exists k, l. split; [done|]. unfold track_differs.
        by rewrite Hl', E.
      * exfalso. apply Hex. exists k, l. split; [done|].
        unfold track_differs. by rewrite Hl'.
    + intros (_ & ? & ? & ?). done.
Qed.

(** C6, at the input on which the code departs from it: a sequence
    without tracks compares equal to one that has a track (the loop
    visits the tracks of the left operand only), although the two differ
    in track membership; with the operands exchanged the answer is the
    opposite. *)
Theorem eq_ignores_extra_tracks :
  bpm examples.no_tracks = bpm examples.one_track /\
  time_signature examples.no_tracks = time_signature examples.one_track /\
  steps_per_beat examples.no_tracks = steps_per_beat examples.one_track /\
  tracks examples.no_tracks !! 0 = None /\
  tracks examples.one_track !! 0 = Some [examples.qnote 12 100 0 40 0] /\
  __eq__ examples.no_tracks examples.one_track = true /\
  __eq__ examples.one_track examples.no_tracks = false.
Proof. vm_compute. repeat split; reflexivity. Qed.

(** ** Failures of the load *)

(** The bit test recognises exactly the powers of two. *)
Lemma is_power_of_2_spec x : is_power_of_2 x = true <-> power_of_two x.
Proof.
  unfold is_power_of_2, power_of_two.
  rewrite andb_true_iff, negb_true_iff, Z.eqb_neq, Z.eqb_eq.
  split.
  - intros [Hx Hland].
    destruct (Z.lt_trichotomy x 0) as [Hneg|[->|Hpos]]; [|done|].
    + assert (Z.land x (x - 1) < 0) by (apply Z.land_neg; lia). lia.
    + exists (Z.log2 x). pose proof (Z.log2_nonneg x) as Hk.
      split; [done|].
      destruct (Z.log2_spec x Hpos) as [Hlo Hhi].
      destruct (decide (x = 2 ^ Z.log2 x)) as [|Hne]; [done|]. exfalso.
      assert (Z.log2 (x - 1) = Z.log2 x) as Hlog
        by (apply Z.log2_unique; lia).
      assert (Z.testbit (Z.land x (x - 1)) (Z.log2 x) = true) as Hbit.
      { rewrite Z.land_spec, (Z.bit_log2 x Hpos), <- Hlog.
        rewrite Z.bit_log2; [done | lia]. }
      rewrite Hland, Z.bits_0 in Hbit. discriminate.
  - intros (k & Hk & ->). split.
    + pose proof (Z.pow_pos_nonneg 2 k). lia.
    + replace (2 ^ k - 1) with (Z.ones k) by (rewrite Z.ones_equiv; lia).
      rewrite Z.land_ones by done. apply Z.mod_same.
      pose proof (Z.pow_pos_nonneg 2 k). lia.
Qed.

Lemma is_power_of_2_false x : is_power_of_2 x = false <-> ~ power_of_two x.
Proof.
  rewrite <- is_power_of_2_spec. by destruct (is_power_of_2 x).
Qed.

(** C7: a load raises MultipleTimeSignatureException when the sequence
    carries more than one time signature; otherwise it raises
    BadTimeSignatureException when the denominator of the adopted
    signature (the single one, or 4/4) is not a power of two (3, for
    one); otherwise it raises BadNoteException at a note whose computed
    start or end step is negative, the steps of the notes before it
    having been computed. In each case the exception is the outcome of
    the call. *)
Theorem load_failures ns spb self :
  (1 < len (music_pb2.time_signatures ns) ->
   fst (from_note_sequence ns spb self)
     = Raise MultipleTimeSignatureException) /\
  (len (music_pb2.time_signatures ns) <= 1 ->
   ~ power_of_two (denominator (adopted_time_signature ns)) ->
   fst (from_note_sequence ns spb self) = Raise BadTimeSignatureException) /\
  (forall sps pre note post s e,
   len (music_pb2.time_signatures ns) <= 1 ->
   power_of_two (denominator (adopted_time_signature ns)) ->
   steps_per_second spb (adopted_bpm ns) = Ok sps ->
   music_pb2.notes ns = pre ++ note :: post ->
   (forall n, n ∈ pre ->
      exists s' e',
        quantize (fmul (music_pb2.start_time n) sps) = Ok s' /\
        quantize (fmul (music_pb2.end_time n) sps) = Ok e') ->
   quantize (fmul (music_pb2.start_time note) sps) = Ok s ->
   quantize (fmul (music_pb2.end_time note) sps) = Ok e ->
   s < 0 \/ e < 0 ->
   fst (from_note_sequence ns spb self) = Raise BadNoteException).
Proof.
  rewrite from_note_sequence_cases. repeat split.
  - intros H. apply Z.ltb_lt in H. by rewrite H.
  - intros H Hp%is_power_of_2_false. apply Z.ltb_ge in H. by rewrite H, Hp.
  - intros sps pre note post s e H Hp%is_power_of_2_spec Hsps Hnotes Hpre
      Hs He Hneg.
    apply Z.ltb_ge in H. rewrite H, Hp, Hsps, Hnotes. cbn.
    rewrite quantized_prefix_bad; [done| |].
    + intros n Hn. destruct (Hpre n Hn) as (s' & e' & ? & ?).
      by eapply quantized_computed.
    + by eapply quantized_negative.
Qed.

Lemma load_failures_witness :
  fst (from_note_sequence examples.two_signatures 8 __init__)
    = Raise MultipleTimeSignatureException /\
  fst (from_note_sequence examples.four_over_three 8 __init__)
    = Raise BadTimeSignatureException /\
  fst (from_note_sequence examples.good_then_bad 8 __init__)
    = Raise BadNoteException.
Proof.
  split; [|split].
  - apply (proj1 (load_failures examples.two_signatures 8 __init__)).
    vm_compute. reflexivity.
  - apply (proj1 (proj2
             (load_failures examples.four_over_three 8 __init__))).
    + vm_compute. discriminate.
    + apply is_power_of_2_false. vm_compute. reflexivity.
  - apply (proj2 (proj2 (load_failures examples.good_then_bad 8 __init__))
             (f_of_Z 8)
             [examples.note 60 100 (f_of_Z 1) (f_of_Z 2) 0]
             (examples.note 62 100 (examples.ratio (-1) 2) (f_of_Z 1) 0)
             [] (-3) 8).
    + vm_compute. discriminate.
    + exists 2. split; [lia | reflexivity].
    + vm_compute. reflexivity.
    + reflexivity.
    + intros n Hn. apply list_elem_of_In in Hn. destruct Hn as [<-|[]].
      exists 8, 16. vm_compute. split; reflexivity.
    + vm_compute. reflexivity.
    + vm_compute. reflexivity.
    + left. reflexivity.
Defined.

(** The exceptions one note can cause. *)
Lemma quantized_Raise sps note e :
  quantized sps note = Raise e ->
  e = BadNoteException \/ e = OverflowError \/ e = ValueError.
Proof.
  assert (forall x z, quantize x = Raise z ->
            z = OverflowError \/ z = ValueError) as Hq.
  { intros x z. unfold quantize.
    destruct (fadd x _); cbn; intros [= <-]; auto. }
  unfold quantized, rbind.
  destruct (quantize (fmul (music_pb2.start_time note) sps)) eqn:Hs.
  - destruct (quantize (fmul (music_pb2.end_time note) sps)) eqn:He.
    + destruct ((_ <? 0) || _); [|done]. intros [= <-]. auto.
    + intros [= <-]. right. eapply Hq, He.
  - intros [= <-]. right. eapply Hq, Hs.
Qed.

Lemma steps_per_second_Raise spb bpm e :
  steps_per_second spb bpm = Raise e -> e = OverflowError.
Proof.
  unfold steps_per_second, float_of_int, rbind.
  destruct (f_of_Z spb); cbn; congruence.
Qed.

(** C3, as the code has it: a failed load leaves nothing of the
    receiver's earlier contents, yet the receiver is not reset to the
    defaults. [steps_per_beat] is the supplied value; after
    MultipleTimeSignatureException the other attributes are the defaults;
    after BadTimeSignatureException the time signature is the rejected
    one; after BadNoteException the tempo and the time signature are the
    adopted ones and the tracks hold the notes that precede the
    offending one. *)
Theorem failed_load_state ns spb self e self' :
  from_note_sequence ns spb self = (Raise e, self') ->
  (forall other, from_note_sequence ns spb other = (Raise e, self')) /\
  steps_per_beat self' = spb /\
  (e = MultipleTimeSignatureException -> self' = after_reset spb) /\
  (e = BadTimeSignatureException ->
   self' = set_time_signature (adopted_time_signature ns) (after_reset spb)) /\
  (e = BadNoteException ->
   exists sps pre note post qs,
     steps_per_second spb (adopted_bpm ns) = Ok sps /\
     music_pb2.notes ns = pre ++ note :: post /\
     Forall2 (fun n q => quantized sps n = Ok q) pre qs /\
     quantized sps note = Raise BadNoteException /\
     self' = set_tracks (foldl file_note ∅ qs)
               (set_bpm (adopted_bpm ns)
                  (set_time_signature (adopted_time_signature ns)
                     (after_reset spb)))).
Proof.
  intros Hrun. split.
  { intros other. rewrite <- Hrun. by rewrite !from_note_sequence_cases. }
  revert Hrun. rewrite from_note_sequence_cases.
  destruct (1 <? len (music_pb2.time_signatures ns)).
  { intros [= <- <-]. done. }
  destruct (negb (is_power_of_2 _)).
  { intros [= <- <-]. done. }
  cbn. destruct (steps_per_second spb (adopted_bpm ns)) as [sps|e'] eqn:Hsps.
  - destruct (snd (quantized_prefix sps (music_pb2.notes ns))) as [e'|]
      eqn:Hpre; [|done].
    intros [= <- <-].
    destruct (quantized_prefix_split _ _ _ Hpre)
      as (pre & note & post & Hnotes & Hall & Hbad).
    pose proof (quantized_Raise _ _ _ Hbad) as He.
    repeat split; try (intros ->; destruct He as [?|[?|?]]; discriminate).
    intros ->. exists sps, pre, note, post. eauto 10.
  - intros [= <- <-]. apply steps_per_second_Raise in Hsps as ->. done.
Qed.

Lemma failed_load_state_witness :
  steps_per_beat (snd (from_note_sequence examples.good_then_bad 8 __init__))
  = 8.
Proof.
  apply (failed_load_state examples.good_then_bad 8 __init__
           BadNoteException
           (snd (from_note_sequence examples.good_then_bad 8 __init__))).
  vm_compute. reflexivity.
Defined.

(** C3 as stated fails: this load raises BadNoteException and leaves the
    receiver with a filed note, the tempo 60 and 8 steps per beat, which
    is not the default-empty state. *)
Lemma failed_load_not_default :
  let r := from_note_sequence examples.good_then_bad 8 __init__ in
  fst r = Raise BadNoteException /\
  tracks (snd r) !! 0 = Some [examples.qnote 60 100 8 16 0] /\
  bpm (snd r) = f_of_Z 60 /\
  steps_per_beat (snd r) = 8 /\
  tracks __init__ = ∅ /\
  bpm __init__ = f_of_Z 120 /\
  steps_per_beat __init__ = 4 /\
  snd r <> __init__.
Proof.
  vm_compute. repeat split; try reflexivity. discriminate.
Qed.

(** ** A successful load *)

(** C8: after a successful load every input note is filed under its
    instrument with its computed start step, which is not negative; its
    end step is the start step plus one when the two computed steps
    coincide, and the computed end step otherwise. *)
Theorem zero_length_notes_widened ns spb self self' :
  from_note_sequence ns spb self = (Ok tt, self') ->
  exists sps,
    steps_per_second spb (bpm self') = Ok sps /\
    forall note, note ∈ music_pb2.notes ns ->
      exists s e l,
        quantize (fmul (music_pb2.start_time note) sps) = Ok s /\
        quantize (fmul (music_pb2.end_time note) sps) = Ok e /\
        0 <= s /\
        tracks self' !! music_pb2.instrument note = Some l /\
        {| pitch := music_pb2.pitch note;
           velocity := music_pb2.velocity note;
           start := s;
           end_ := if e =? s then s + 1 else e;
           instrument := music_pb2.instrument note;
           program := music_pb2.program note |} ∈ l.
Proof.
  rewrite from_note_sequence_cases.
  destruct (1 <? len (music_pb2.time_signatures ns)); [done|].
  destruct (negb (is_power_of_2 _)); [done|]. cbn.
  destruct (steps_per_second spb (adopted_bpm ns)) as [sps|] eqn:Hsps; [|done].
  destruct (snd (quantized_prefix sps (music_pb2.notes ns))) eqn:Hnone;
    [done|].
  intros [= <-]. exists sps. split; [done|]. intros note Hin.
  destruct (quantized_prefix_complete _ _ Hnone note Hin) as (q & Hq & Hqs).
  destruct (quantized_Ok _ _ _ Hq) as (s & e & Hs & He & Hpos & _ & ->).
  destruct (filed_lookup _ _ Hqs) as (l & Hl & Hql).
  exists s, e, l. done.
Qed.

Lemma zero_length_notes_widened_witness :
  exists self',
    from_note_sequence examples.short_note 4 __init__ = (Ok tt, self') /\
    exists sps,
      steps_per_second 4 (bpm self') = Ok sps /\
      forall note, note ∈ music_pb2.notes examples.short_note ->
        exists s e l,
          quantize (fmul (music_pb2.start_time note) sps) = Ok s /\
          quantize (fmul (music_pb2.end_time note) sps) = Ok e /\
          0 <= s /\
          tracks self' !! music_pb2.instrument note = Some l /\
          {| pitch := music_pb2.pitch note;
             velocity := music_pb2.velocity note;
             start := s;
             end_ := if e =? s then s + 1 else e;
             instrument := music_pb2.instrument note;
             program := music_pb2.program note |} ∈ l.
Proof.
  eexists. split; [vm_compute; reflexivity|].
  apply (zero_length_notes_widened examples.short_note 4 __init__).
  vm_compute. reflexivity.
Defined.

(** The short note of the example is filed with one step; the other note
    keeps its computed steps. *)
Example short_note_filed :
  tracks (snd (from_note_sequence examples.short_note 4 __init__)) !! 0
  = Some [examples.qnote 55 120 16 17 0; examples.qnote 40 45 10 14 0].
Proof. vm_compute. reflexivity. Qed.

(** ** The power-of-two test *)

(** [is_power_of_2] accepts exactly 1, 2, 4, 8, ...; zero and the
    negative integers are rejected, although their bit patterns are
    never inspected for zero and the test runs on two's complement for
    the negative ones. *)
Theorem is_power_of_2_exact x :
  (is_power_of_2 x = true <-> exists k, 0 <= k /\ x = 2 ^ k) /\
  (x <= 0 -> is_power_of_2 x = false).
Proof.
  split; [apply is_power_of_2_spec|].
  intros Hx. apply is_power_of_2_false. intros (k & Hk & ->).
  pose proof (Z.pow_pos_nonneg 2 k). lia.
Qed.

(** ** The outcome of a load *)

Lemma quantized_prefix_all sps notes :
  snd (quantized_prefix sps notes) = None ->
  Forall2 (fun n q => quantized sps n = Ok q) notes
          (fst (quantized_prefix sps notes)).
Proof.
  induction notes as [|n rest IH]; cbn; [constructor|].
  destruct (quantized sps n) as [q|e] eqn:Hq; [|done].
  destruct (quantized_prefix sps rest) as [qs e]. cbn in *.
  intros He. constructor; auto.
Qed.

Lemma quantized_prefix_None sps notes qs :
  Forall2 (fun n q => quantized sps n = Ok q) notes qs ->
  quantized_prefix sps notes = (qs, None).
Proof.
  induction 1 as [|n q notes qs Hq _ IH]; cbn; [done|].
  by rewrite Hq, IH.
Qed.

Lemma quantized_nonneg sps note :
  (exists q, quantized sps note = Ok q) <->
  exists s e,
    quantize (fmul (music_pb2.start_time note) sps) = Ok s /\
    quantize (fmul (music_pb2.end_time note) sps) = Ok e /\
    0 <= s /\ 0 <= e.
Proof.
  unfold quantized, rbind. split.
  - intros [q Hq].
    destruct (quantize (fmul (music_pb2.start_time note) sps)) as [s|];
      [|done].
    destruct (quantize (fmul (music_pb2.end_time note) sps)) as [e|]; [|done].
    rewrite negative_test_widened in Hq.
    destruct (Z.ltb_spec s 0), (Z.ltb_spec e 0); try done.
    exists s, e. done.
  - intros (s & e & -> & -> & Hs & He). rewrite negative_test_widened.
    rewrite (proj2 (Z.ltb_ge s 0)), (proj2 (Z.ltb_ge e 0)) by done.
    cbn. eauto.
Qed.

(** A load returns normally exactly when the sequence has at most one
    time signature, the denominator of the adopted one is a power of two,
    the steps per second can be computed, and both steps of every note
    are computed and not negative. *)
Theorem load_succeeds_iff ns spb self :
  fst (from_note_sequence ns spb self) = Ok tt <->
  len (music_pb2.time_signatures ns) <= 1 /\
  power_of_two (denominator (adopted_time_signature ns)) /\
  exists sps,
    steps_per_second spb (adopted_bpm ns) = Ok sps /\
    forall note, note ∈ music_pb2.notes ns ->
      exists s e,
        quantize (fmul (music_pb2.start_time note) sps) = Ok s /\
        quantize (fmul (music_pb2.end_time note) sps) = Ok e /\
        0 <= s /\ 0 <= e.
Proof.
  rewrite from_note_sequence_cases, <- is_power_of_2_spec.
  destruct (Z.ltb_spec 1 (len (music_pb2.time_signatures ns))) as [Hts|Hts].
  { split; [done | lia]. }
  destruct (is_power_of_2 _); cbn; [|split; [done | by intros (_ & ? & _)]].
  destruct (steps_per_second spb (adopted_bpm ns)) as [sps|e] eqn:Hsps; cbn.
  - split.
    + destruct (snd (quantized_prefix sps (music_pb2.notes ns))) eqn:Hnone;
        [done|]. intros _. repeat split; [done|].
      exists sps. split; [done|]. intros note Hin.
      destruct (quantized_prefix_complete _ _ Hnone note Hin) as (q & Hq & _).
      apply quantized_nonneg. eauto.
    + intros (_ & _ & sps' & [= <-] & Hall).
      assert (exists qs, Forall2 (fun n q => quantized sps n = Ok q)
                                 (music_pb2.notes ns) qs) as [qs Hqs].
      { induction (music_pb2.notes ns) as [|n rest IH]; [eexists; constructor|].
        destruct IH as [qs Hqs].
        { intros note Hin. apply Hall, elem_of_cons. by right. }
        destruct (proj2 (quantized_nonneg sps n)) as [q Hq].
        { apply Hall, elem_of_cons. by left. }
        exists (q :: qs). by constructor. }
      by rewrite (quantized_prefix_None _ _ _ Hqs).
  - split; [done|]. by intros (_ & _ & sps' & [=] & _).
Qed.

Lemma load_succeeds_iff_witness :
  fst (from_note_sequence examples.short_note 4 __init__) = Ok tt.
Proof.
  apply (load_succeeds_iff examples.short_note 4 __init__).
  split; [vm_compute; discriminate|]. split; [exists 2; by vm_compute|].
  exists (f_of_Z 4). split; [vm_compute; reflexivity|].
  intros note Hin. apply list_elem_of_In in Hin.
  destruct Hin as [<-|[<-|[]]].
  - exists 16, 16. vm_compute. repeat split; discriminate.
  - exists 10, 14. vm_compute. repeat split; discriminate.
Defined.

(** After a successful load the four attributes are known exactly: the
    scalars are the supplied or adopted ones, and the track of every
    instrument holds the quantized notes of that instrument, all of
    them, once each and in the order of the input; an instrument without
    notes has no track. *)
Theorem load_result ns spb self self' :
  from_note_sequence ns spb self = (Ok tt, self') ->
  exists sps qs,
    steps_per_second spb (adopted_bpm ns) = Ok sps /\
    Forall2 (fun n q => quantized sps n = Ok q) (music_pb2.notes ns) qs /\
    (forall k, tracks self' !! k =
               match filter (fun q => instrument q = k) qs with
               | [] => None
               | l => Some l
               end) /\
    bpm self' = adopted_bpm ns /\
    time_signature self' = adopted_time_signature ns /\
    steps_per_beat self' = spb.
Proof.
  rewrite from_note_sequence_cases.
  destruct (1 <? len (music_pb2.time_signatures ns)); [done|].
  destruct (negb (is_power_of_2 _)); [done|]. cbn.
  destruct (steps_per_second spb (adopted_bpm ns)) as [sps|] eqn:Hsps; [|done].
  destruct (snd (quantized_prefix sps (music_pb2.notes ns))) eqn:Hnone;
    [done|].
  intros [= <-]. exists sps, (fst (quantized_prefix sps (music_pb2.notes ns))).
  split; [done|]. split; [by apply quantized_prefix_all|].
  split; [|done]. intros k. cbn. rewrite foldl_file_note_lookup, lookup_empty.
  by destruct (filter _ _).
Qed.

Lemma load_result_witness :
  exists sps qs,
    steps_per_second 4 (adopted_bpm examples.short_note) = Ok sps /\
    Forall2 (fun n q => quantized sps n = Ok q)
            (music_pb2.notes examples.short_note) qs /\
    (forall k,
       tracks (snd (from_note_sequence examples.short_note 4 __init__)) !! k =
       match filter (fun q => instrument q = k) qs with
       | [] => None
       | l => Some l
       end) /\
    bpm (snd (from_note_sequence examples.short_note 4 __init__))
      = adopted_bpm examples.short_note /\
    time_signature (snd (from_note_sequence examples.short_note 4 __init__))
      = adopted_time_signature examples.short_note /\
    steps_per_beat (snd (from_note_sequence examples.short_note 4 __init__))
      = 4.
Proof.
  apply (load_result examples.short_note 4 __init__).
  vm_compute. reflexivity.
Defined.

(** What is filed comes from the input and is well-formed in the sense
    the loop enforces: a note found in track [k] after a successful load
    carries the pitch, velocity and program of an input note of
    instrument [k], its two steps are not negative, and they differ. The
    end step may still precede the start step. *)
Theorem filed_notes_wellformed ns spb self self' k l q :
  from_note_sequence ns spb self = (Ok tt, self') ->
  tracks self' !! k = Some l -> q ∈ l ->
  instrument q = k /\ 0 <= start q /\ 0 <= end_ q /\ start q <> end_ q /\
  exists note,
    note ∈ music_pb2.notes ns /\
    music_pb2.instrument note = k /\
    pitch q = music_pb2.pitch note /\
    velocity q = music_pb2.velocity note /\
    program q = music_pb2.program note.
Proof.
  rewrite from_note_sequence_cases.
  destruct (1 <? len (music_pb2.time_signatures ns)); [done|].
  destruct (negb (is_power_of_2 _)); [done|]. cbn.
  destruct (steps_per_second spb (adopted_bpm ns)) as [sps|] eqn:Hsps; [|done].
  destruct (snd (quantized_prefix sps (music_pb2.notes ns))) eqn:Hnone;
    [done|].
  intros [= <-]. cbn. rewrite foldl_file_note_lookup, lookup_empty.
  intros Hl Hq.
  assert (q ∈ filter (fun q' => instrument q' = k)
                     (fst (quantized_prefix sps (music_pb2.notes ns)))) as Hf.
  { destruct (filter _ _); [done|]. cbn in Hl. by injection Hl as <-. }
  apply list_elem_of_filter in Hf as [Hk Hin].
  apply list_elem_of_lookup in Hin as [i Hi].
  destruct (Forall2_lookup_r _ _ _ _ _ (quantized_prefix_all _ _ Hnone) Hi)
    as (note & Hnote & Hquant).
  destruct (quantized_Ok _ _ _ Hquant) as (s & e & _ & _ & Hs & He & ->).
  cbn in *. repeat split; try done.
  - destruct (Z.eqb_spec e s); lia.
  - exists note. repeat split; try done. by eapply list_elem_of_lookup_2.
Qed.

Lemma filed_notes_wellformed_witness :
  instrument (examples.qnote 55 120 16 17 0) = 0 /\
  0 <= start (examples.qnote 55 120 16 17 0) /\
  0 <= end_ (examples.qnote 55 120 16 17 0) /\
  start (examples.qnote 55 120 16 17 0) <> end_ (examples.qnote 55 120 16 17 0)
  /\
  exists note,
    note ∈ music_pb2.notes examples.short_note /\
    music_pb2.instrument note = 0 /\
    pitch (examples.qnote 55 120 16 17 0) = music_pb2.pitch note /\
    velocity (examples.qnote 55 120 16 17 0) = music_pb2.velocity note /\
    program (examples.qnote 55 120 16 17 0) = music_pb2.program note.
Proof.
  apply (filed_notes_wellformed examples.short_note 4 __init__
           (snd (from_note_sequence examples.short_note 4 __init__)) 0
           [examples.qnote 55 120 16 17 0; examples.qnote 40 45 10 14 0]).
  - vm_compute. reflexivity.
  - vm_compute. reflexivity.
  - apply list_elem_of_In. left. reflexivity.
Defined.

(** A load repopulates its receiver: the outcome and the receiver
    afterwards are the same whatever the receiver held before, be it the
    result of an earlier load. *)
Theorem load_ignores_receiver ns spb ns0 spb0 self other :
  from_note_sequence ns spb (snd (from_note_sequence ns0 spb0 self))
  = from_note_sequence ns spb other.
Proof. by rewrite !(from_note_sequence_cases ns spb). Qed.

(** ** Truncation and the floor *)

(** [quantize] and the half-up rule [floor(x + 0.5)] raise together; when
    they return they agree unless the float sum is negative, and then
    [quantize] is the floor or one step above it. *)
Theorem quantize_floor_gap x :
  match quantize x, quantize_floor x with
  | Ok z, Ok f =>
      f <= z <= f + 1 /\
      (SFltb (fadd x (fsub (f_of_Z 1) QUANTIZE_CUTOFF)) (S754_zero false)
         = false -> z = f)
  | Raise e, Raise e' => e = e'
  | _, _ => False
  end.
Proof.
  unfold quantize, quantize_floor.
  destruct (fadd x _) as [s|s| |s m e]; cbn; try done.
  destruct s; cbn; [|destruct e; (split; [lia | done])].
  destruct e as [|e|k]; cbn; try (split; [lia | done]).
  split; [|done].
  assert (0 < 2 ^ Z.pos k) as Hd by (apply Z.pow_pos_nonneg; lia).
  destruct (decide (Z.pos m mod 2 ^ Z.pos k = 0)) as [Hz|Hnz].
  - rewrite Z_div_zero_opp_full by (assumption || lia). lia.
  - rewrite Z_div_nz_opp_full by (assumption || lia). lia.
Qed.

(** ** Float equality, and what it makes of [__eq__] *)

Lemma feqb_spec x y :
  feqb x y = true <->
  match x, y with
  | S754_zero _, S754_zero _ => True
  | S754_infinity s1, S754_infinity s2 => s1 = s2
  | S754_finite s1 m1 e1, S754_finite s2 m2 e2 =>
      s1 = s2 /\ m1 = m2 /\ e1 = e2
  | _, _ => False
  end.
Proof.
  assert (forall m1 m2 : positive,
            Pos.compare_cont Eq m1 m2 = Eq <-> m1 = m2) as Hpos.
  { intros m1 m2. change (Pos.compare_cont Eq m1 m2) with (Pos.compare m1 m2).
    apply Pos.compare_eq_iff. }
  unfold feqb, SFeqb, SFcompare.
  destruct x as [s1|s1| |s1 m1 e1], y as [s2|s2| |s2 m2 e2];
    try destruct s1; try destruct s2; try (split; (done || by intros [])).
  - destruct (Z.compare_spec e1 e2) as [->|?|?].
    + specialize (Hpos m1 m2).
      destruct (Pos.compare_cont Eq m1 m2); cbn; split; try done.
      * intros _. repeat split. by apply Hpos.
      * intros (_ & Hm & _). apply Hpos in Hm. discriminate.
      * intros (_ & Hm & _). apply Hpos in Hm. discriminate.
    + split; [done | intros (_ & _ & ?); lia].
    + split; [done | intros (_ & _ & ?); lia].
  - destruct (Z.compare_spec e1 e2) as [->|?|?].
    + specialize (Hpos m1 m2).
      destruct (Pos.compare_cont Eq m1 m2); cbn; split; try done.
      * intros _. repeat split. by apply Hpos.
      * intros (_ & Hm & _). apply Hpos in Hm. discriminate.
      * intros (_ & Hm & _). apply Hpos in Hm. discriminate.
    + split; [done | intros (_ & _ & ?); lia].
    + split; [done | intros (_ & _ & ?); lia].
Qed.

Lemma feqb_sym x y : feqb x y = feqb y x.
Proof.
  apply eq_true_iff_eq. rewrite !feqb_spec.
  destruct x, y; try done; split; try done; intros; intuition congruence.
Qed.

Lemma feqb_trans x y z :
  feqb x y = true -> feqb y z = true -> feqb x z = true.
Proof.
  rewrite !feqb_spec.
  destruct x, y, z; try done; intros; intuition congruence.
Qed.

Lemma feqb_refl x : feqb x x = true <-> x <> S754_nan.
Proof. rewrite feqb_spec. destruct x; split; done. Qed.

(** Two sequences with the same track keys, whose tracks hold the same
    notes whatever their order and multiplicity, and whose scalar
    attributes agree, compare equal in both directions. *)
Theorem eq_same_notes a b :
  (forall k, option_Forall2 (fun l l' => forall x, x ∈ l <-> x ∈ l')
                            (tracks a !! k) (tracks b !! k)) ->
  feqb (bpm a) (bpm b) = true ->
  time_signature a = time_signature b ->
  steps_per_beat a = steps_per_beat b ->
  __eq__ a b = true /\ __eq__ b a = true.
Proof.
  intros Htr Hbpm Hts Hspb. split; apply eq_spec.
  - split; [|done]. intros k l Hl. specialize (Htr k). rewrite Hl in Htr.
    inversion Htr as [l0 l' Hsame|]; subst. eauto.
  - split; [|by rewrite feqb_sym]. intros k l Hl. specialize (Htr k).
    rewrite Hl in Htr. inversion Htr as [l' l0 Hsame|]; subst.
    exists l'. split; [done|]. intros x. symmetry. apply Hsame.
Qed.

Lemma eq_same_notes_witness :
  __eq__ (set_tracks (<[0 := [examples.qnote 12 100 0 40 0;
                              examples.qnote 11 100 1 2 0]]> ∅) __init__)
         (set_tracks (<[0 := [examples.qnote 11 100 1 2 0;
                              examples.qnote 12 100 0 40 0;
                              examples.qnote 11 100 1 2 0]]> ∅) __init__)
    = true /\
  __eq__ (set_tracks (<[0 := [examples.qnote 11 100 1 2 0;
                              examples.qnote 12 100 0 40 0;
                              examples.qnote 11 100 1 2 0]]> ∅) __init__)
         (set_tracks (<[0 := [examples.qnote 12 100 0 40 0;
                              examples.qnote 11 100 1 2 0]]> ∅) __init__)
    = true.
Proof.
  apply eq_same_notes; try reflexivity.
  intros k. cbn [tracks set_tracks].
  destruct (decide (k = 0)) as [->|Hk].
  - rewrite !lookup_insert_eq. constructor. intros x.
    rewrite !elem_of_cons. intuition.
  - rewrite !lookup_insert_ne, !lookup_empty by done. constructor.
Defined.

(** A sequence compares equal to itself unless its tempo is a NaN. *)
Theorem eq_reflexive_iff a : __eq__ a a = true <-> bpm a <> S754_nan.
Proof.
  rewrite eq_spec, feqb_refl. split; [by intros (_ & ? & _)|].
  intros Hbpm. repeat split; try done. intros k l Hl. eauto.
Qed.

(** The comparison is transitive, although it is not symmetric. *)
Theorem eq_transitive a b c :
  __eq__ a b = true -> __eq__ b c = true -> __eq__ a c = true.
Proof.
  rewrite !eq_spec.
  intros (Hab & Hbpm & Hts & Hspb) (Hbc & Hbpm' & Hts' & Hspb').
  repeat split; [|by eapply feqb_trans|congruence..].
  intros k l Hl. destruct (Hab k l Hl) as (l' & Hl' & Hsame).
  destruct (Hbc k l' Hl') as (l'' & Hl'' & Hsame').
  exists l''. split; [done|]. intros x. by rewrite Hsame.
Qed.

Lemma eq_transitive_witness :
  __eq__ examples.no_tracks
         (set_tracks (<[3 := [examples.qnote 1 10 0 6 3]]> (tracks
                        examples.one_track)) examples.one_track) = true.
Proof.
  apply (eq_transitive examples.no_tracks examples.one_track);
    vm_compute; reflexivity.
Defined.

(** With the same track keys on both sides the comparison is symmetric. *)
Theorem eq_symmetric_same_keys a b :
  dom (tracks a) = dom (tracks b) -> __eq__ a b = __eq__ b a.
Proof.
  intros Hdom. apply eq_true_iff_eq. rewrite !eq_spec.
  assert (forall a b : QuantizedSequence,
            dom (tracks a) = dom (tracks b) ->
            (forall k l, tracks a !! k = Some l ->
               exists l', tracks b !! k = Some l' /\
                          forall x, x ∈ l <-> x ∈ l') ->
            forall k l, tracks b !! k = Some l ->
              exists l', tracks a !! k = Some l' /\
                         forall x, x ∈ l <-> x ∈ l') as Hflip.
  { intros a' b' Hd H k l Hl.
    assert (is_Some (tracks a' !! k)) as [l' Hl'].
    { apply elem_of_dom. rewrite Hd. apply elem_of_dom. eauto. }
    destruct (H k l' Hl') as (l0 & Hl0 & Hsame).
    assert (l0 = l) as -> by congruence.
    exists l'. split; [done|]. intros x. symmetry. apply Hsame. }
  split; intros (Htr & Hbpm & Hts & Hspb);
    (split; [eapply Hflip; eauto | by rewrite feqb_sym]).
Qed.

Lemma eq_symmetric_same_keys_witness :
  __eq__ examples.one_track (set_bpm (f_of_Z 60) examples.one_track)
  = __eq__ (set_bpm (f_of_Z 60) examples.one_track) examples.one_track.
Proof.
  apply eq_symmetric_same_keys. reflexivity.
Defined.

End sequences_lib_facts.

(** * Facts about the melody codec *)

Module attention_rnn_facts.
Import Py melodies_lib attention_rnn.

(** ** Assignment to an item *)

Lemma rbind_Ok {A B} (r : result A) (k : A -> result B) b :
  rbind r k = Ok b -> exists a, r = Ok a /\ k a = Ok b.
Proof. destruct r as [a|]; [eauto | discriminate]. Qed.

Lemma wrap_nonneg n i : 0 <= i -> wrap n i = i.
Proof. intros Hi. unfold wrap. by rewrite (proj2 (Z.ltb_ge i 0)). Qed.

Lemma len_nonneg {A} (l : list A) : 0 <= len l.
Proof. unfold len. lia. Qed.

Lemma len_list_repeat {A} (v : A) n : len (list_repeat v n) = Z.max 0 n.
Proof. unfold len, list_repeat. rewrite length_replicate. lia. Qed.

Lemma setitem_Ok {A} (l : list A) i v l' :
  setitem l i v = Ok l' ->
  - len l <= i < len l /\ l' = <[Z.to_nat (wrap (len l) i) := v]> l.
Proof.
  unfold setitem, wrap.
  destruct (Z.ltb_spec i 0);
    destruct ((_ <? 0) || (len l <=? _)) eqn:Hr; try discriminate;
    intros [= <-]; apply orb_false_iff in Hr as [?%Z.ltb_ge ?%Z.leb_gt];
    (split; [lia | reflexivity]).
Qed.

Lemma setitem_length {A} (l : list A) i v l' :
  setitem l i v = Ok l' -> len l' = len l.
Proof.
  intros [_ ->]%setitem_Ok. unfold len. by rewrite length_insert.
Qed.

Lemma setitem_in_range {A} (l : list A) i v :
  - len l <= i < len l ->
  setitem l i v = Ok (<[Z.to_nat (wrap (len l) i) := v]> l).
Proof.
  intros Hr. unfold setitem, wrap.
  destruct (Z.ltb_spec i 0);
    (rewrite (proj2 (orb_false_iff _ _)); [reflexivity|]);
    (split; [apply Z.ltb_ge | apply Z.leb_gt]); lia.
Qed.

Lemma cond_setitem_length {A} (b : bool) (l : list A) i v l' :
  (if b then setitem l i v else Ok l) = Ok l' -> len l' = len l.
Proof.
  destruct b; [apply setitem_length | by intros [= <-]].
Qed.

Lemma mark_keys_length off mx h i l l' :
  mark_keys off mx h i l = Ok l' -> len l' = len l.
Proof.
  revert i l; induction h as [|x h IH]; intros i l; cbn.
  - by intros [= <-].
  - intros (l1 & H1 & H)%rbind_Ok. apply cond_setitem_length in H1.
    apply IH in H. congruence.
Qed.

Lemma mark_keys_in_range off mx h i l :
  (forall j, i <= j < i + len h -> - len l <= off + j < len l) ->
  exists l', mark_keys off mx h i l = Ok l'.
Proof.
  revert i l; induction h as [|x h IH]; intros i l Hr; cbn; [eauto|].
  assert (exists l1, (if x =? mx then setitem l (off + i) f1 else Ok l)
                     = Ok l1 /\ len l1 = len l) as (l1 & H1 & Hlen).
  { destruct (x =? mx); [|eauto].
    rewrite setitem_in_range.
    - eexists. split; [reflexivity|]. unfold len. by rewrite length_insert.
    - apply Hr. unfold len. cbn [length]. lia. }
  rewrite H1. cbn. apply IH. intros j Hj. rewrite Hlen.
  apply Hr. unfold len in *. cbn [length]. lia.
Qed.

Lemma time_counters_length self n fuel i l l' :
  time_counters self n fuel i l = Ok l' -> len l' = len l.
Proof.
  revert i l; induction fuel as [|fuel IH]; intros i l; cbn.
  - by intros [= <-].
  - intros (l1 & H1 & H)%rbind_Ok. apply setitem_length in H1.
    apply IH in H. congruence.
Qed.

Lemma time_counters_first self n fuel i l l' :
  time_counters self n (S fuel) i l = Ok l' ->
  - len l <= note_range self + 6 + i < len l.
Proof.
  cbn. intros (l1 & H1 & _)%rbind_Ok. by apply setitem_Ok in H1 as [? _].
Qed.

(** ** Indexing from the end *)

Lemma back_0_last (ev : list Z) : back ev 0 = last ev.
Proof.
  unfold back. rewrite last_lookup. destruct ev as [|x ev]; [done|].
  cbn [length Nat.ltb Nat.leb]. f_equal. lia.
Qed.

Lemma getitem_back (ev : list Z) (k : nat) :
  getitem ev (- (Z.of_nat k + 1)) =
  match back ev k with
  | Some x => Ok x
  | None => Raise IndexError
  end.
Proof.
  unfold getitem, wrap, back, len.
  assert ((- (Z.of_nat k + 1) <? 0) = true) as -> by (apply Z.ltb_lt; lia).
  destruct (Nat.ltb_spec k (length ev)) as [Hlt|Hge].
  - assert (((- (Z.of_nat k + 1) + Z.of_nat (length ev) <? 0)
             || (Z.of_nat (length ev)
                 <=? - (Z.of_nat k + 1) + Z.of_nat (length ev))) = false)
      as ->.
    { apply orb_false_iff. split; [apply Z.ltb_ge | apply Z.leb_gt]; lia. }
    replace (Z.to_nat (- (Z.of_nat k + 1) + Z.of_nat (length ev)))
      with (length ev - 1 - k)%nat by lia.
    destruct (ev !! _) eqn:E; [done|].
    apply lookup_ge_None in E. lia.
  - assert ((- (Z.of_nat k + 1) + Z.of_nat (length ev) <? 0) = true) as ->
      by (apply Z.ltb_lt; lia).
    done.
Qed.

Lemma back_length (ev : list Z) (k : nat) x :
  back ev k = Some x -> (k < length ev)%nat.
Proof.
  unfold back. destruct (Nat.ltb_spec k (length ev)); [done | discriminate].
Qed.

Section Codec.

Variables NOTE_OFF NO_EVENT : Z.

#[local] Abbreviation melody_to_label :=
  (melody_to_label NOTE_OFF NO_EVENT).
#[local] Abbreviation class_index_to_melody_event :=
  (class_index_to_melody_event NOTE_OFF NO_EVENT).
#[local] Abbreviation label_rule := (label_rule NOTE_OFF NO_EVENT).

(** ** Repeats *)

Lemma getitem_last (ev : list Z) a :
  last ev = Some a -> getitem ev (-1) = Ok a.
Proof.
  intros Hlast. change (-1) with (- (Z.of_nat 0 + 1)).
  by rewrite getitem_back, back_0_last, Hlast.
Qed.

Lemma repeats_back (ev : list Z) (k : nat) a :
  last ev = Some a ->
  repeats (Z.of_nat k <? len ev) ev (Z.of_nat k)
  = Ok (bool_decide (back ev k = Some a)).
Proof.
  intros Hlast. unfold repeats, py_and, rbind.
  rewrite (getitem_last _ _ Hlast), getitem_back.
  unfold len. destruct (Z.ltb_spec (Z.of_nat k) (Z.of_nat (length ev))).
  - destruct (back ev k) as [b|] eqn:Hb.
    + f_equal. destruct (Z.eqb_spec a b) as [->|Hne].
      * by rewrite bool_decide_eq_true_2.
      * rewrite bool_decide_eq_false_2; [done | congruence].
    + unfold back in Hb. destruct (Nat.ltb_spec k (length ev)); [|lia].
      apply lookup_ge_None in Hb. lia.
  - rewrite bool_decide_eq_false_2; [done|].
    intros Hb%back_length. lia.
Qed.

(** ** The label *)

Lemma melody_to_label_rule self (ev : list Z) a :
  last ev = Some a ->
  melody_to_label self {| events := ev |}
  = Ok (label_rule (len ev <=? 2 * STEPS_PER_BAR) self ev a).
Proof.
  intros Hlast. unfold attention_rnn.melody_to_label, attention_rnn.label_rule.
  cbn [events].
  change (2 * STEPS_PER_BAR) with (Z.of_nat (2 * 16)).
  change STEPS_PER_BAR with (Z.of_nat 16).
  rewrite !(repeats_back _ _ _ Hlast), (getitem_last _ _ Hlast).
  unfold py_or, py_and, rbind.
  destruct (len ev <=? Z.of_nat (2 * 16)); cbn [andb orb].
  - destruct (a =? NO_EVENT) eqn:Ha; cbn [orb]; [done|].
    destruct (bool_decide (back ev (2 * 16) = Some a)); [done|].
    destruct (bool_decide (back ev 16 = Some a)); [done|].
    destruct (a =? NOTE_OFF); done.
  - destruct (bool_decide (back ev (2 * 16) = Some a)); [done|].
    destruct (bool_decide (back ev 16 = Some a)); [done|].
    destruct (a =? NOTE_OFF); [done|]. destruct (a =? NO_EVENT); done.
Qed.

(** C2, as the code has it: the label of a non-empty melody follows the
    decision list, first match winning: note_range+3 if the last event
    repeats the event 2x16 steps earlier, or is a no-event while the
    history has at most 2x16 events; else note_range+2 if it repeats the
    event 16 steps earlier; else note_range+1 for a note-off; else
    note_range for a no-event; else the pitch minus min_note. When the
    events one and two bars earlier both equal the last event, the label
    is the 2-bar class. *)
Theorem label_decision_list self (ev : list Z) a :
  last ev = Some a ->
  melody_to_label self {| events := ev |}
    = Ok (label_rule (len ev <=? 2 * STEPS_PER_BAR) self ev a) /\
  (back ev 16 = Some a -> back ev (2 * 16) = Some a ->
   melody_to_label self {| events := ev |} = Ok (note_range self + 3)).
Proof.
  intros Hlast. rewrite (melody_to_label_rule _ _ _ Hlast).
  split; [done|]. intros _ H2. unfold attention_rnn.label_rule.
  by rewrite (bool_decide_eq_true_2 _ H2), orb_true_r.
Qed.

(** A plain note-on that repeats nothing is labelled by its pitch. *)
Lemma label_plain_note self (ev : list Z) P :
  last ev = Some P ->
  P <> NO_EVENT -> P <> NOTE_OFF ->
  back ev 16 <> Some P -> back ev (2 * 16) <> Some P ->
  melody_to_label self {| events := ev |} = Ok (P - min_note self).
Proof.
  intros Hlast Hno Hoff H1 H2. rewrite (melody_to_label_rule _ _ _ Hlast).
  unfold attention_rnn.label_rule.
  rewrite (proj2 (Z.eqb_neq P NO_EVENT)), (proj2 (Z.eqb_neq P NOTE_OFF))
    by done.
  rewrite !bool_decide_eq_false_2 by done.
  by rewrite andb_false_r.
Qed.

(** C4, as the code has it: for a melody whose last event is a plain
    note-on at pitch P that repeats neither the event one bar nor the
    event two bars earlier, the label is P - min_note, and decoding the
    label gives P back provided P - min_note is none of the four special
    classes note_range .. note_range+3, as is the case for every pitch
    of the window. *)
Theorem label_decode_round_trip self (ev : list Z) P :
  last ev = Some P ->
  P <> NO_EVENT -> P <> NOTE_OFF ->
  back ev 16 <> Some P -> back ev (2 * 16) <> Some P ->
  melody_to_label self {| events := ev |} = Ok (P - min_note self) /\
  (~ (note_range self <= P - min_note self < note_range self + 4) ->
   rbind (melody_to_label self {| events := ev |})
         (fun c => class_index_to_melody_event self c {| events := ev |})
   = Ok P).
Proof.
  intros Hlast Hno Hoff H1 H2.
  rewrite (label_plain_note _ _ _ Hlast Hno Hoff H1 H2).
  split; [done|]. intros Hcls. cbn [rbind].
  unfold attention_rnn.class_index_to_melody_event.
  rewrite !(proj2 (Z.eqb_neq _ _)) by lia. f_equal. lia.
Qed.

Lemma num_classes_eq self : num_classes self = note_range self + 4.
Proof. unfold num_classes, NUM_SPECIAL_EVENTS, NUM_SPECIAL_CLASSES. lia. Qed.

(** C9, as the code has it: the label lies in [0, note_range + 4) for
    every non-empty melody whose last event is one of the two sentinels
    or a pitch of the window [min_note, min_note + note_range). *)
Theorem label_in_range self (ev : list Z) a :
  0 <= note_range self ->
  last ev = Some a ->
  a = NO_EVENT \/ a = NOTE_OFF \/
    min_note self <= a < min_note self + note_range self ->
  exists c, melody_to_label self {| events := ev |} = Ok c /\
            0 <= c < note_range self + 4.
Proof.
  intros Hnr Hlast Ha. rewrite (melody_to_label_rule _ _ _ Hlast).
  eexists. split; [reflexivity|]. unfold attention_rnn.label_rule.
  destruct (_ || _); [lia|]. destruct (bool_decide _); [lia|].
  destruct (Z.eqb_spec a NOTE_OFF); [lia|].
  destruct (Z.eqb_spec a NO_EVENT); [lia|].
  destruct Ha as [?|[?|?]]; [done | done | lia].
Qed.

(** ** The input vector *)

Variable get_major_key_histogram : list Z -> list Z.

#[local] Abbreviation melody_to_input :=
  (melody_to_input NOTE_OFF NO_EVENT get_major_key_histogram).
#[local] Abbreviation features :=
  (features NOTE_OFF NO_EVENT get_major_key_histogram).
#[local] Abbreviation last_3_keys := (last_3_keys get_major_key_histogram).
#[local] Abbreviation scan_of ev :=
  (fold_left (scan_step NOTE_OFF NO_EVENT) ev scan_init).

(** The run of [melody_to_input], phase by phase; the third case is the
    one in which the substituted event list would stay behind. *)
Lemma melody_to_input_phases self melody :
  melody_to_input self melody =
  match features self (events melody) with
  | Raise e => (Raise e, melody)
  | Ok input_ =>
      let last_3 := last_3_notes (scan_of (events melody)) in
      match last_3_keys self last_3 input_ with
      | Raise e => (Raise e, set_events last_3 melody)
      | Ok input_ => (Ok input_, set_events (events melody)
                                   (set_events last_3 melody))
      end
  end.
Proof.
  unfold attention_rnn.melody_to_input, attention_rnn.features,
    attention_rnn.last_3_keys, current_note_slots, melodies_lib.__len__.
  unfold bind, get, lift, modify, ret, rbind; cbn [events set_events].
  repeat match goal with
         | |- context [match ?r with Ok _ => _ | Raise _ => _ end] =>
             destruct r; [|reflexivity]
         end.
  reflexivity.
Qed.

(** ** What the later assignments keep *)

Lemma keeps_refl self l : keeps self l l.
Proof. intros k. done. Qed.

Lemma keeps_trans self l1 l2 l3 :
  keeps self l1 l2 -> keeps self l2 l3 -> keeps self l1 l3.
Proof.
  intros H12 H23 k. destruct (H12 k) as [Ha Hb], (H23 k) as [Hc Hd].
  split.
  - intros Hk. by rewrite Hc, Ha.
  - intros Hk H1. by apply Hd, Hb.
Qed.

Lemma setitem_lookup_ne {A} (l : list A) i v l' (k : nat) :
  0 <= i -> setitem l i v = Ok l' -> Z.of_nat k <> i -> l' !! k = l !! k.
Proof.
  intros Hi [_ ->]%setitem_Ok Hk. unfold wrap.
  rewrite (proj2 (Z.ltb_ge i 0)) by done.
  apply list_lookup_insert_ne. lia.
Qed.

Lemma setitem_lookup_eq {A} (l : list A) i v l' :
  setitem l i v = Ok l' -> l' !! Z.to_nat (wrap (len l) i) = Some v.
Proof.
  intros [Hr ->]%setitem_Ok. apply list_lookup_insert_eq.
  unfold wrap, len in *. destruct (Z.ltb_spec i 0); lia.
Qed.

Lemma keeps_setitem self l i x l' :
  0 <= note_range self ->
  note_range self + 2 <= i < note_range self + 14 ->
  setitem l i x = Ok l' -> keeps self l l'.
Proof.
  intros Hnr Hi Hset k. split.
  - intros Hk. eapply setitem_lookup_ne; [|done|]; lia.
  - intros Hk H1. rewrite (setitem_lookup_ne l i x l' k); [done|lia|done|lia].
Qed.

Lemma keeps_cond_setitem self (b : bool) l i x l' :
  0 <= note_range self ->
  note_range self + 2 <= i < note_range self + 14 ->
  (if b then setitem l i x else Ok l) = Ok l' -> keeps self l l'.
Proof.
  destruct b; [apply keeps_setitem|].
  intros _ _ [= <-]. apply keeps_refl.
Qed.

Lemma keeps_setitem_key self l i l' :
  0 <= note_range self -> note_range self + 14 <= i ->
  setitem l i f1 = Ok l' -> keeps self l l'.
Proof.
  intros Hnr Hi Hset k. split.
  - intros Hk. eapply setitem_lookup_ne; [|done|]; lia.
  - intros Hk H1. destruct (decide (Z.of_nat k = i)) as [<-|Hne].
    + pose proof (setitem_lookup_eq _ _ _ _ Hset) as Hk'.
      unfold wrap in Hk'. rewrite (proj2 (Z.ltb_ge _ 0)) in Hk' by lia.
      by rewrite Nat2Z.id in Hk'.
    + rewrite (setitem_lookup_ne l i f1 l' k); [done|lia|done|done].
Qed.

Lemma keeps_mark_keys self off mx h i l l' :
  0 <= note_range self -> note_range self + 14 <= off + i ->
  mark_keys off mx h i l = Ok l' -> keeps self l l'.
Proof.
  intros Hnr. revert i l; induction h as [|x h IH]; intros i l Hi; cbn.
  - intros [= <-]. apply keeps_refl.
  - intros (l1 & H1 & H)%rbind_Ok.
    apply keeps_trans with l1; [|apply (IH (i + 1)); [lia | done]].
    destruct (x =? mx); [by eapply keeps_setitem_key|].
    injection H1 as <-. apply keeps_refl.
Qed.

Lemma keeps_time_counters self n fuel i l l' :
  0 <= note_range self -> 0 <= i -> i + Z.of_nat fuel <= 7 ->
  time_counters self n fuel i l = Ok l' -> keeps self l l'.
Proof.
  intros Hnr. revert i l; induction fuel as [|fuel IH]; intros i l Hi Hf; cbn.
  - intros [= <-]. apply keeps_refl.
  - intros (l1 & H1 & H)%rbind_Ok.
    apply keeps_trans with l1; [|apply (IH (i + 1)); [lia | lia | done]].
    eapply keeps_setitem; [done| |done]. lia.
Qed.

Lemma features_keeps self ev input_ :
  0 <= note_range self ->
  features self ev = Ok input_ ->
  exists l1,
    current_note_slots self (current_note (scan_of ev))
                       (list_repeat f0 (input_size self)) = Ok l1 /\
    keeps self l1 input_.
Proof.
  intros Hnr. unfold attention_rnn.features. cbv zeta.
  intros (l1 & H1 & H)%rbind_Ok. apply rbind_Ok in H as (l2 & H2 & H).
  apply rbind_Ok in H as (l3 & H3 & H). apply rbind_Ok in H as (r1 & _ & H).
  apply rbind_Ok in H as (l4 & H4 & H). apply rbind_Ok in H as (r2 & _ & H).
  apply rbind_Ok in H as (l5 & H5 & H). apply rbind_Ok in H as (l6 & H6 & H).
  apply rbind_Ok in H as (l7 & H7 & H). apply rbind_Ok in H as (mx & _ & H).
  exists l1. split; [exact H1|].
  apply (keeps_cond_setitem self) in H2, H4, H5, H7; try lia.
  assert (keeps self l2 l3) as K3.
  { destruct (is_ascending _).
    - eapply keeps_setitem; [done| |done]. lia.
    - injection H3 as <-. apply keeps_refl. }
  apply (keeps_time_counters self) in H6;
    [|done|done|change (Z.to_nat NUM_BINARY_TIME_COUNTERS) with 7%nat; lia].
  apply (keeps_mark_keys self) in H; [|lia..].
  repeat (eapply keeps_trans; [eassumption|]). apply keeps_refl.
Qed.

Lemma last_3_keys_keeps self last_3 input_ v :
  0 <= note_range self ->
  last_3_keys self last_3 input_ = Ok v -> keeps self input_ v.
Proof.
  intros Hnr. unfold attention_rnn.last_3_keys.
  intros (mx & _ & H)%rbind_Ok.
  apply (keeps_mark_keys self) in H; [done|done|].
  change NOTES_PER_OCTAVE with 12. lia.
Qed.

(** The first assignments on the fresh vector of zeros. *)
Lemma current_note_slots_silent self c :
  0 <= note_range self ->
  c = None \/ c = Some 0 ->
  exists l1,
    current_note_slots self c (list_repeat f0 (input_size self)) = Ok l1 /\
    silence_active self l1.
Proof.
  intros Hnr Hc.
  assert (current_note_slots self c (list_repeat f0 (input_size self))
          = setitem (list_repeat f0 (input_size self))
                    (note_range self + 1) f1) as ->
    by (destruct Hc as [->| ->]; reflexivity).
  assert (len (list_repeat f0 (input_size self)) = note_range self + 38)
    as Hlen.
  { rewrite len_list_repeat. unfold input_size, NUM_SPECIAL_INPUTS.
    change NOTES_PER_OCTAVE with 12. lia. }
  rewrite setitem_in_range by lia.
  eexists. split; [reflexivity|]. unfold wrap.
  rewrite (proj2 (Z.ltb_ge _ 0)) by lia. split.
  - apply list_lookup_insert_eq. unfold len in Hlen. lia.
  - intros i Hi. rewrite list_lookup_insert_ne by lia.
    apply lookup_replicate_2. unfold input_size, NUM_SPECIAL_INPUTS.
    change NOTES_PER_OCTAVE with 12. lia.
Qed.

Lemma current_note_slots_out_of_range self p :
  p <> 0 ->
  ~ (- input_size self <= p - min_note self < input_size self) ->
  0 <= note_range self ->
  current_note_slots self (Some p) (list_repeat f0 (input_size self))
  = Raise IndexError.
Proof.
  intros Hp Hr Hnr. cbn. rewrite (proj2 (Z.eqb_neq p 0)) by done.
  assert (len (list_repeat f0 (input_size self)) = input_size self) as Hlen.
  { rewrite len_list_repeat. unfold input_size, NUM_SPECIAL_INPUTS.
    change NOTES_PER_OCTAVE with 12. lia. }
  unfold setitem at 1, wrap. rewrite Hlen.
  destruct (Z.ltb_spec (p - min_note self) 0).
  - rewrite (proj2 (Z.ltb_lt _ 0)) by lia. done.
  - rewrite (proj2 (Z.leb_le (input_size self) _)) by lia.
    by rewrite orb_true_r.
Qed.

Lemma current_note_slots_note self p :
  p <> 0 ->
  - input_size self <= p - min_note self < input_size self ->
  0 <= note_range self ->
  exists l1,
    current_note_slots self (Some p) (list_repeat f0 (input_size self))
      = Ok l1 /\
    note_active self p l1.
Proof.
  intros Hp Hr Hnr. cbn. rewrite (proj2 (Z.eqb_neq p 0)) by done.
  assert (input_size self = note_range self + 38) as Hsize.
  { unfold input_size, NUM_SPECIAL_INPUTS. change NOTES_PER_OCTAVE with 12.
    lia. }
  assert (len (list_repeat f0 (input_size self)) = input_size self) as Hlen.
  { rewrite len_list_repeat. lia. }
  rewrite setitem_in_range by (rewrite Hlen; lia). cbn [rbind].
  rewrite setitem_in_range
    by (unfold len in *; rewrite length_insert; lia).
  eexists. split; [reflexivity|].
  unfold note_active. rewrite Hlen. cbv zeta.
  set (j := wrap (input_size self) (p - min_note self)).
  assert (0 <= j < input_size self) as Hj
    by (unfold j, wrap; destruct (Z.ltb_spec (p - min_note self) 0); lia).
  rewrite (wrap_nonneg _ (note_range self)) by done.
  assert (length (list_repeat f0 (input_size self))
          = Z.to_nat (input_size self)) as Hlen'
    by (unfold list_repeat; apply length_replicate).
  repeat split.
  - apply list_lookup_insert_eq. rewrite length_insert. lia.
  - intros i Hi Hne. rewrite !list_lookup_insert_ne by lia.
    apply lookup_replicate_2. lia.
  - intros _. destruct (decide (j = note_range self)) as [->|Hne].
    + apply list_lookup_insert_eq. rewrite length_insert. lia.
    + rewrite list_lookup_insert_ne by lia.
      apply list_lookup_insert_eq. lia.
Qed.

Lemma keeps_silence_active self l v :
  0 <= note_range self ->
  keeps self l v -> silence_active self l -> silence_active self v.
Proof.
  intros Hnr K [H1 H0]. split.
  - destruct (K (Z.to_nat (note_range self + 1))) as [Hk _].
    rewrite Hk by lia. done.
  - intros i Hi. destruct (K (Z.to_nat i)) as [Hk _].
    rewrite Hk by lia. auto.
Qed.

Lemma keeps_note_active self p l v :
  0 <= note_range self ->
  - input_size self <= p - min_note self < input_size self ->
  keeps self l v -> note_active self p l -> note_active self p v.
Proof.
  intros Hnr Hr K (Hany & Hzero & Hone). unfold note_active. cbv zeta.
  assert (0 <= wrap (input_size self) (p - min_note self)) as Hj
    by (unfold wrap; destruct (Z.ltb_spec (p - min_note self) 0); lia).
  repeat split.
  - destruct (K (Z.to_nat (note_range self))) as [Hk _].
    rewrite Hk by lia. done.
  - intros i Hi Hne. destruct (K (Z.to_nat i)) as [Hk _].
    rewrite Hk by lia. auto.
  - intros [Hlow|Hkey].
    + destruct (K (Z.to_nat (wrap (input_size self) (p - min_note self))))
        as [Hk _]. rewrite Hk by lia. auto.
    + destruct (K (Z.to_nat (wrap (input_size self) (p - min_note self))))
        as [_ Hk]. apply Hk; [lia | auto].
Qed.

(** ** The assignments that cannot fail *)

Lemma cond_setitem_in_range {A} (b : bool) (l : list A) i v :
  - len l <= i < len l ->
  exists l', (if b then setitem l i v else Ok l) = Ok l' /\ len l' = len l.
Proof.
  intros Hr. destruct b; [|eauto]. rewrite setitem_in_range by done.
  eexists. split; [reflexivity|]. unfold len. by rewrite length_insert.
Qed.

Lemma time_counters_in_range self n fuel i l :
  (forall j, i <= j < i + Z.of_nat fuel ->
             - len l <= note_range self + 6 + j < len l) ->
  exists l', time_counters self n fuel i l = Ok l' /\ len l' = len l.
Proof.
  revert i l; induction fuel as [|fuel IH]; intros i l Hr; cbn; [eauto|].
  rewrite setitem_in_range by (apply Hr; lia). cbn [rbind].
  destruct (IH (i + 1) (<[Z.to_nat (wrap (len l) (note_range self + 6 + i))
                          := if (n / 2 ^ i) mod 2 =? 0 then fm1 else f1]> l))
    as (l' & -> & Hl').
  - intros j Hj. unfold len. rewrite length_insert. apply Hr. lia.
  - exists l'. split; [done|]. rewrite Hl'. unfold len.
    by rewrite length_insert.
Qed.

Lemma repeats_total (ev : list Z) (k : nat) :
  exists b, repeats (Z.of_nat k + 1 <=? len ev) ev (Z.of_nat k) = Ok b.
Proof.
  unfold repeats, py_and. cbn [rbind].
  destruct (Z.leb_spec (Z.of_nat k + 1) (len ev)) as [Hlen|_]; [|eauto].
  unfold len in Hlen.
  change (-1) with (- (Z.of_nat 0 + 1)). rewrite !getitem_back. unfold back.
  rewrite (proj2 (Nat.ltb_lt 0 (length ev))) by lia.
  rewrite (proj2 (Nat.ltb_lt k (length ev))) by lia.
  destruct (ev !! (length ev - 1 - 0)%nat) as [a|] eqn:Ea;
    [|apply lookup_ge_None in Ea; lia].
  destruct (ev !! (length ev - 1 - k)%nat) as [b|] eqn:Eb;
    [|apply lookup_ge_None in Eb; lia].
  cbn. eauto.
Qed.

(** After the first phase the vector has its full length, which is
    positive: one of the time-counter slots has been assigned. *)
Lemma features_length self ev input_ :
  features self ev = Ok input_ ->
  len input_ = input_size self /\ - input_size self <= note_range self + 6.
Proof.
  unfold attention_rnn.features. cbv zeta.
  intros (l1 & H1 & H)%rbind_Ok. apply rbind_Ok in H as (l2 & H2 & H).
  apply rbind_Ok in H as (l3 & H3 & H). apply rbind_Ok in H as (r1 & _ & H).
  apply rbind_Ok in H as (l4 & H4 & H). apply rbind_Ok in H as (r2 & _ & H).
  apply rbind_Ok in H as (l5 & H5 & H). apply rbind_Ok in H as (l6 & H6 & H).
  apply rbind_Ok in H as (l7 & H7 & H). apply rbind_Ok in H as (mx & _ & H).
  assert (len l1 = len (list_repeat f0 (input_size self))) as E1.
  { unfold current_note_slots in H1.
    destruct (current_note _) as [c|]; [destruct (c =? 0)|];
      try (by apply setitem_length in H1).
    apply rbind_Ok in H1 as (l0 & H0 & H1).
    apply setitem_length in H0, H1. congruence. }
  apply cond_setitem_length in H2, H4, H5, H7.
  assert (len l3 = len l2) as E3.
  { destruct (is_ascending _); [by apply setitem_length in H3|].
    by injection H3 as <-. }
  pose proof (time_counters_first _ _ _ _ _ _ H6) as Hr.
  apply time_counters_length in H6. apply mark_keys_length in H.
  rewrite len_list_repeat in E1. unfold input_size, NUM_SPECIAL_INPUTS in *.
  change NOTES_PER_OCTAVE with 12 in *. lia.
Qed.

Section TwelveKeys.

(** The key histogram has one bin for each of the twelve keys. *)
Hypothesis key_histogram_length :
  forall ev, length (get_major_key_histogram ev) = 12%nat.

Lemma last_3_keys_Ok self last_3 input_ :
  len input_ = input_size self ->
  - input_size self <= note_range self + 6 ->
  exists input_', last_3_keys self last_3 input_ = Ok input_'.
Proof.
  intros Hlen Hnr. unfold attention_rnn.last_3_keys, max_of.
  pose proof (key_histogram_length last_3) as H12.
  destruct (get_major_key_histogram last_3) as [|x h] eqn:Hh;
    [discriminate|].
  cbn [rbind]. apply mark_keys_in_range. intros j Hj.
  unfold len in Hj. rewrite H12 in Hj. rewrite Hlen.
  unfold input_size, NUM_SPECIAL_INPUTS in *.
  change NOTES_PER_OCTAVE with 12 in *. lia.
Qed.

Lemma current_note_slots_length self c l l' :
  current_note_slots self c l = Ok l' -> len l' = len l.
Proof.
  unfold current_note_slots.
  destruct c as [p|]; [destruct (p =? 0)|]; try apply setitem_length.
  intros (l0 & H0 & H1)%rbind_Ok. apply setitem_length in H0, H1.
  congruence.
Qed.

(** Once the first block has gone through, nothing before the
    substitution raises. *)
Lemma features_total self ev l1 :
  0 <= note_range self ->
  current_note_slots self (current_note (scan_of ev))
                     (list_repeat f0 (input_size self)) = Ok l1 ->
  exists input_, features self ev = Ok input_.
Proof.
  intros Hnr H1.
  assert (len l1 = note_range self + 38) as E1.
  { rewrite (current_note_slots_length _ _ _ _ H1), len_list_repeat.
    unfold input_size, NUM_SPECIAL_INPUTS. change NOTES_PER_OCTAVE with 12.
    lia. }
  unfold attention_rnn.features. cbv zeta. rewrite H1. cbn [rbind].
  destruct (cond_setitem_in_range (is_attack (scan_of ev)) l1
              (note_range self + 2) f1) as (l2 & -> & E2); [lia|].
  cbn [rbind].
  assert (exists l3,
            match is_ascending (scan_of ev) with
            | Some asc =>
                setitem l2 (note_range self + 3) (if asc then f1 else fm1)
            | None => Ok l2
            end = Ok l3 /\ len l3 = len l2) as (l3 & -> & E3).
  { destruct (is_ascending (scan_of ev)) as [asc|]; [|eauto].
    rewrite setitem_in_range by lia. eexists. split; [reflexivity|].
    unfold len. by rewrite length_insert. }
  cbn [rbind].
  change (2 * STEPS_PER_BAR) with (Z.of_nat 32).
  change STEPS_PER_BAR with (Z.of_nat 16).
  destruct (repeats_total ev 16) as [r1 ->]. cbn [rbind].
  destruct (cond_setitem_in_range r1 l3 (note_range self + 4) f1)
    as (l4 & -> & E4); [lia|].
  cbn [rbind]. destruct (repeats_total ev 32) as [r2 ->]. cbn [rbind].
  destruct (cond_setitem_in_range r2 l4 (note_range self + 5) f1)
    as (l5 & -> & E5); [lia|].
  cbn [rbind]. change (Z.to_nat NUM_BINARY_TIME_COUNTERS) with 7%nat.
  destruct (time_counters_in_range self (len ev) 7 0 l5)
    as (l6 & -> & E6); [intros j Hj; lia|].
  cbn [rbind].
  destruct (cond_setitem_in_range (len ev `mod` Z.of_nat 16 =? 0) l6
              (note_range self + 13) f1) as (l7 & -> & E7); [lia|].
  cbn [rbind]. unfold max_of.
  pose proof (key_histogram_length ev) as H12.
  destruct (get_major_key_histogram ev) as [|x h] eqn:Hh; [discriminate|].
  cbn [rbind]. apply mark_keys_in_range. intros j Hj.
  unfold len in Hj. rewrite H12 in Hj. lia.
Qed.

(** C5: whatever the melody, and whether the call returns or raises,
    [melody_to_input] leaves the melody as it found it: the event list
    substituted for the key histogram of the last three notes is replaced
    by the original one before the call ends. *)
Theorem melody_to_input_restores_events self melody :
  snd (melody_to_input self melody) = melody.
Proof.
  rewrite melody_to_input_phases.
  destruct (features self (events melody)) as [input_|e] eqn:Hf; [|done].
  destruct (features_length _ _ _ Hf) as [Hlen Hnr]. cbv zeta.
  destruct (last_3_keys_Ok self (last_3_notes (scan_of (events melody)))
              input_ Hlen Hnr) as [v ->].
  by destruct melody.
Qed.

(** The outcome of the call is decided by the first block. *)
Lemma melody_to_input_from_slots self melody l1 :
  0 <= note_range self ->
  current_note_slots self (current_note (scan_of (events melody)))
                     (list_repeat f0 (input_size self)) = Ok l1 ->
  exists v, fst (melody_to_input self melody) = Ok v /\ keeps self l1 v.
Proof.
  intros Hnr H1. rewrite melody_to_input_phases.
  destruct (features_total _ _ _ Hnr H1) as [input_ Hf]. rewrite Hf.
  destruct (features_keeps _ _ _ Hnr Hf) as (l1' & H1' & K1).
  assert (l1' = l1) as -> by congruence.
  destruct (features_length _ _ _ Hf) as [Hlen Hlow]. cbv zeta.
  destruct (last_3_keys_Ok self (last_3_notes (scan_of (events melody)))
              input_ Hlen Hlow) as [v Hv].
  rewrite Hv. exists v. split; [done|].
  eapply keeps_trans; [exact K1|]. by eapply last_3_keys_keeps.
Qed.

Lemma melody_to_input_slots_raise self melody e :
  current_note_slots self (current_note (scan_of (events melody)))
                     (list_repeat f0 (input_size self)) = Raise e ->
  fst (melody_to_input self melody) = Raise e.
Proof.
  intros H1. rewrite melody_to_input_phases.
  unfold attention_rnn.features. cbv zeta. by rewrite H1.
Qed.

(** C10, as the code has it: a melody whose sounding pitch at its end is
    none or 0 is encoded as silence (the silence slot set, the any-note
    slot and all pitch slots clear). For a sounding pitch p other than 0
    the call raises IndexError unless -input_size <= p - min_note <
    input_size; otherwise it returns, the any-note slot is set, and the
    only pitch slot that may be set is the slot j that the index
    p - min_note denotes. That slot is a pitch slot when p is in the
    window, and also when p is more than NUM_SPECIAL_INPUTS below
    min_note; for p below min_note it is slot input_size - (min_note - p),
    a key-indicator slot exactly when min_note - p <= 2 * 12. *)
Theorem current_note_encoding self melody :
  0 <= note_range self ->
  let r := fst (melody_to_input self melody) in
  match current_note (scan_of (events melody)) with
  | None => exists v, r = Ok v /\ silence_active self v
  | Some p =>
      if p =? 0 then exists v, r = Ok v /\ silence_active self v
      else if (- input_size self <=? p - min_note self)
              && (p - min_note self <? input_size self)
      then
        (exists v, r = Ok v /\ note_active self p v) /\
        let j := wrap (input_size self) (p - min_note self) in
        (0 <= j < note_range self <->
         min_note self <= p < min_note self + note_range self \/
         NUM_SPECIAL_INPUTS < min_note self - p) /\
        (p < min_note self ->
         j = input_size self - (min_note self - p) /\
         (note_range self + 14 <= j <->
          min_note self - p <= 2 * NOTES_PER_OCTAVE))
      else r = Raise IndexError
  end.
Proof.
  intros Hnr r. subst r.
  assert (forall c, c = None \/ c = Some 0 ->
            current_note (scan_of (events melody)) = c ->
            exists v, fst (melody_to_input self melody) = Ok v /\
                      silence_active self v) as Hsilent.
  { intros c Hc Hcur.
    destruct (current_note_slots_silent self c Hnr Hc) as (l1 & H1 & S1).
    rewrite <- Hcur in H1.
    destruct (melody_to_input_from_slots _ _ _ Hnr H1) as (v & Hv & K).
    exists v. split; [done|]. by eapply keeps_silence_active. }
  destruct (current_note (scan_of (events melody))) as [p|] eqn:Hcur;
    [|apply (Hsilent None); auto].
  destruct (Z.eqb_spec p 0) as [->|Hp]; [apply (Hsilent (Some 0)); auto|].
  assert (input_size self = note_range self + 38) as Hsize.
  { unfold input_size, NUM_SPECIAL_INPUTS. change NOTES_PER_OCTAVE with 12.
    lia. }
  destruct (Z.leb_spec (- input_size self) (p - min_note self)) as [Hlo|Hlo];
    [destruct (Z.ltb_spec (p - min_note self) (input_size self)) as [Hhi|Hhi]|];
    cbn [andb].
  - split.
    + destruct (current_note_slots_note self p Hp (conj Hlo Hhi) Hnr)
        as (l1 & H1 & N1).
      rewrite <- Hcur in H1.
      destruct (melody_to_input_from_slots _ _ _ Hnr H1) as (v & Hv & K).
      exists v. split; [done|]. by eapply keeps_note_active.
    + cbv zeta. unfold wrap, NUM_SPECIAL_INPUTS.
      change NOTES_PER_OCTAVE with 12.
      destruct (Z.ltb_spec (p - min_note self) 0); lia.
  - apply melody_to_input_slots_raise. rewrite Hcur.
    apply current_note_slots_out_of_range; [done|lia|done].
  - apply melody_to_input_slots_raise. rewrite Hcur.
    apply current_note_slots_out_of_range; [done|lia|done].
Qed.

End TwelveKeys.

End Codec.

Lemma current_note_encoding_witness :
  (exists v, fst (instance.melody_to_input __init__ (instance.melody [47]))
             = Ok v /\ note_active __init__ 47 v) /\
  let j := wrap (input_size __init__) (47 - min_note __init__) in
  (0 <= j < note_range __init__ <->
   min_note __init__ <= 47 < min_note __init__ + note_range __init__ \/
   NUM_SPECIAL_INPUTS < min_note __init__ - 47) /\
  (47 < min_note __init__ ->
   j = input_size __init__ - (min_note __init__ - 47) /\
   (note_range __init__ + 14 <= j <->
    min_note __init__ - 47 <= 2 * NOTES_PER_OCTAVE)).
Proof.
  apply (current_note_encoding instance.NOTE_OFF instance.NO_EVENT
           instance.get_major_key_histogram (fun ev => eq_refl) __init__
           (instance.melody [47])).
  vm_compute. discriminate.
Defined.

(** C10 as stated fails for the pitch 1: the index 1 - 48 = -47 denotes
    slot 74 - 47 = 27 of the 74 slots, which is a pitch slot (that of
    pitch 75), not a key-indicator slot; the call returns with that slot
    set. *)
Lemma low_pitch_wraps_into_pitch_region :
  exists v,
    fst (instance.melody_to_input __init__ (instance.melody [1])) = Ok v /\
    wrap (input_size __init__) (1 - min_note __init__) = 27 /\
    v !! 27%nat = Some f1 /\
    27 < note_range __init__ /\
    ~ (note_range __init__ + 14 <= 27) /\
    ~ (min_note __init__ <= 1 < max_note __init__).
Proof.
  eexists. split; [vm_compute; reflexivity|].
  vm_compute. repeat split; try reflexivity.
  - intros H. apply H. reflexivity.
  - intros [H _]. apply H. reflexivity.
Qed.

Lemma melody_to_input_restores_events_witness :
  snd (instance.melody_to_input __init__ (instance.melody [60; 62; 64; 60]))
  = instance.melody [60; 62; 64; 60].
Proof.
  apply (melody_to_input_restores_events instance.NOTE_OFF instance.NO_EVENT
           instance.get_major_key_histogram).
  intros ev. reflexivity.
Defined.

Lemma label_decode_round_trip_witness :
  instance.melody_to_label __init__ (instance.melody [60; 62])
    = Ok (62 - min_note __init__) /\
  rbind (instance.melody_to_label __init__ (instance.melody [60; 62]))
        (fun c => instance.class_index_to_melody_event __init__ c
                    (instance.melody [60; 62]))
  = Ok 62.
Proof.
  destruct (label_decode_round_trip instance.NOTE_OFF instance.NO_EVENT
              __init__ [60; 62] 62) as [Hlabel Hdecode];
    try reflexivity; try discriminate.
  split; [exact Hlabel|]. apply Hdecode.
  vm_compute. intros [H _]. apply H. reflexivity.
Defined.

(** C4 as stated fails for the pitch max_note = 84: it is a plain
    note-on and repeats nothing, its label 84 - 48 = 36 is the no-event
    class, and decoding gives the no-event code, not 84. *)
Lemma round_trip_fails_at_max_note :
  last [84] = Some 84 /\
  back [84] 16 = None /\ back [84] (2 * 16) = None /\
  instance.melody_to_label __init__ (instance.melody [84])
    = Ok (84 - min_note __init__) /\
  rbind (instance.melody_to_label __init__ (instance.melody [84]))
        (fun c => instance.class_index_to_melody_event __init__ c
                    (instance.melody [84]))
  = Ok instance.NO_EVENT /\
  instance.NO_EVENT <> 84.
Proof. vm_compute. repeat split; try reflexivity. discriminate. Qed.

Lemma label_in_range_witness :
  exists c, instance.melody_to_label __init__ (instance.melody [60; 62]) = Ok c
            /\ 0 <= c < note_range __init__ + 4.
Proof.
  apply (label_in_range instance.NOTE_OFF instance.NO_EVENT __init__
           [60; 62] 62).
  - vm_compute. discriminate.
  - reflexivity.
  - right. right. vm_compute. split; [discriminate | reflexivity].
Defined.

(** C9 as stated fails for a pitch above the window: the melody [90]
    is labelled 90 - 48 = 42, outside [0, 40). *)
Lemma label_out_of_range :
  instance.melody_to_label __init__ (instance.melody [90]) = Ok 42 /\
  note_range __init__ + 4 = 40 /\
  ~ (0 <= 42 < note_range __init__ + 4).
Proof.
  vm_compute. repeat split; try reflexivity. intros [_ H]. discriminate H.
Qed.

Lemma label_decision_list_witness :
  instance.melody_to_label __init__ (instance.melody instance.same_for_two_bars)
  = Ok (note_range __init__ + 3).
Proof.
  apply (label_decision_list instance.NOTE_OFF instance.NO_EVENT __init__
           instance.same_for_two_bars 60); reflexivity.
Defined.

(** C2 as stated fails on a history of exactly two bars that ends in a
    no-event and repeats nothing: such a history is not shorter than two
    bars, so the stated rule gives the no-event class 36, but the code
    answers with the 2-bar class 39. *)
Lemma label_two_bars_then_rest :
  len instance.two_bars_then_rest = 2 * STEPS_PER_BAR /\
  last instance.two_bars_then_rest = Some instance.NO_EVENT /\
  back instance.two_bars_then_rest 16 = Some 60 /\
  back instance.two_bars_then_rest (2 * 16) = None /\
  instance.label_as_stated __init__ instance.two_bars_then_rest
    instance.NO_EVENT = 36 /\
  instance.melody_to_label __init__
    (instance.melody instance.two_bars_then_rest) = Ok 39.
Proof. vm_compute. repeat split; reflexivity. Qed.

(** ** Labelling an event and decoding it against the history before it *)

Section Generation.

Variables NOTE_OFF NO_EVENT : Z.

#[local] Abbreviation label := (melody_to_label NOTE_OFF NO_EVENT).
#[local] Abbreviation decode := (class_index_to_melody_event NOTE_OFF NO_EVENT).

Lemma back_snoc (m : list Z) e (k : nat) : back (m ++ [e]) (S k) = back m k.
Proof.
  unfold back. rewrite length_app. cbn [length].
  destruct (Nat.ltb_spec k (length m)).
  - rewrite (proj2 (Nat.ltb_lt (S k) (length m + 1))) by lia.
    rewrite lookup_app_l by lia. f_equal. lia.
  - by rewrite (proj2 (Nat.ltb_ge (S k) (length m + 1))) by lia.
Qed.

Lemma getitem_back_some (m : list Z) (k : nat) x :
  back m k = Some x -> getitem m (- Z.of_nat (S k)) = Ok x /\ x ∈ m.
Proof.
  intros Hb. replace (- Z.of_nat (S k)) with (- (Z.of_nat k + 1)) by lia.
  rewrite getitem_back, Hb. split; [done|].
  unfold back in Hb. destruct (k <? length m)%nat; [|done].
  by eapply list_elem_of_lookup_2.
Qed.

(** The label of the melody extended by an event [e], decoded against
    the melody before the extension, is [e] again: for both sentinels
    whatever the history, and for every other code whose offset from
    [min_note] is none of the four special classes. *)
Theorem label_then_decode self (m : list Z) e :
  e = NO_EVENT \/ e = NOTE_OFF \/
    ~ (note_range self <= e - min_note self < note_range self + 4) ->
  rbind (label self {| events := m ++ [e] |})
        (fun c => decode self c {| events := m |})
  = Ok e.
Proof.
  intros He. rewrite (melody_to_label_rule _ _ _ _ e) by apply last_snoc.
  cbn [rbind]. unfold attention_rnn.label_rule,
    attention_rnn.class_index_to_melody_event, melodies_lib.__len__.
  cbn [events]. change (2 * 16)%nat with (S 31). change 16%nat with (S 15).
  rewrite !back_snoc.
  assert (len (m ++ [e]) = len m + 1) as Hlen
    by (unfold len; rewrite length_app; cbn; lia).
  rewrite Hlen.
  destruct (bool_decide (back m 31 = Some e)) eqn:H2.
  { apply bool_decide_eq_true in H2. rewrite orb_true_r, Z.eqb_refl.
    pose proof (back_length _ _ _ H2) as Hl.
    destruct (getitem_back_some _ _ _ H2) as [Hg _].
    rewrite (proj2 (Z.ltb_ge (len m) (2 * STEPS_PER_BAR)))
      by (unfold len, STEPS_PER_BAR; lia).
    exact Hg. }
  rewrite orb_false_r.
  destruct (Z.leb_spec (len m + 1) (2 * STEPS_PER_BAR)) as [Hshort|Hlong];
    cbn [andb].
  - destruct (Z.eqb_spec e NO_EVENT) as [->|Hno].
    { rewrite Z.eqb_refl.
      by rewrite (proj2 (Z.ltb_lt (len m) (2 * STEPS_PER_BAR))) by lia. }
    destruct (bool_decide (back m 15 = Some e)) eqn:H1.
    { apply bool_decide_eq_true in H1.
      rewrite (proj2 (Z.eqb_neq _ _)), Z.eqb_refl by lia.
      pose proof (back_length _ _ _ H1) as Hl.
      destruct (getitem_back_some _ _ _ H1) as [Hg _].
      rewrite (proj2 (Z.ltb_ge (len m) STEPS_PER_BAR))
        by (unfold len, STEPS_PER_BAR; lia).
      exact Hg. }
    destruct (Z.eqb_spec e NOTE_OFF) as [->|Hoff].
    { by rewrite !(proj2 (Z.eqb_neq _ _)), Z.eqb_refl by lia. }
    destruct He as [?|[?|He]]; [done..|].
    rewrite !(proj2 (Z.eqb_neq _ _)) by lia. f_equal. lia.
  - destruct (bool_decide (back m 15 = Some e)) eqn:H1.
    { apply bool_decide_eq_true in H1.
      rewrite (proj2 (Z.eqb_neq _ _)), Z.eqb_refl by lia.
      pose proof (back_length _ _ _ H1) as Hl.
      destruct (getitem_back_some _ _ _ H1) as [Hg _].
      rewrite (proj2 (Z.ltb_ge (len m) STEPS_PER_BAR))
        by (unfold len, STEPS_PER_BAR; lia).
      exact Hg. }
    destruct (Z.eqb_spec e NOTE_OFF) as [->|Hoff].
    { by rewrite !(proj2 (Z.eqb_neq _ _)), Z.eqb_refl by lia. }
    destruct (Z.eqb_spec e NO_EVENT) as [->|Hno].
    { by rewrite !(proj2 (Z.eqb_neq _ _)), Z.eqb_refl by lia. }
    destruct He as [?|[?|He]]; [done..|].
    rewrite !(proj2 (Z.eqb_neq _ _)) by lia. f_equal. lia.
Qed.

(** The labelling raises IndexError on the empty melody and on no
    other. *)
Theorem label_raises_iff_empty self (ev : list Z) :
  melody_to_label NOTE_OFF NO_EVENT self {| events := [] |}
    = Raise IndexError /\
  ((exists c, melody_to_label NOTE_OFF NO_EVENT self {| events := ev |} = Ok c)
   <-> ev <> []).
Proof.
  split; [reflexivity|]. split.
  - intros [c Hc] ->. discriminate Hc.
  - intros Hne. destruct (last ev) as [a|] eqn:Hlast.
    + rewrite (melody_to_label_rule _ _ _ _ a Hlast). eauto.
    + by apply last_None in Hlast.
Qed.

(** The decoding never raises, the empty history included; it yields a
    sentinel, the pitch [min_note + class_index], or an event of the
    history. *)
Theorem decode_total self c m :
  exists e,
    decode self c m = Ok e /\
    (e = NO_EVENT \/ e = NOTE_OFF \/ e = min_note self + c \/ e ∈ events m).
Proof.
  assert (forall k : nat,
            ~ (len (events m) < Z.of_nat (S k)) ->
            exists e, getitem (events m) (- Z.of_nat (S k)) = Ok e /\
                      e ∈ events m) as Hget.
  { intros k Hk. unfold len in Hk.
    destruct (back (events m) k) as [x|] eqn:Hb.
    - exists x. by apply getitem_back_some.
    - unfold back in Hb.
      rewrite (proj2 (Nat.ltb_lt k (length (events m)))) in Hb by lia.
      apply lookup_ge_None in Hb. lia. }
  unfold attention_rnn.class_index_to_melody_event, melodies_lib.__len__.
  destruct (c =? note_range self + 3).
  { destruct (Z.ltb_spec (len (events m)) (2 * STEPS_PER_BAR)); [eauto|].
    destruct (Hget 31%nat) as (e & He & Hin);
      [unfold STEPS_PER_BAR in *; lia|].
    exists e. split; [exact He | auto]. }
  destruct (c =? note_range self + 2).
  { destruct (Z.ltb_spec (len (events m)) STEPS_PER_BAR); [eauto|].
    destruct (Hget 15%nat) as (e & He & Hin);
      [unfold STEPS_PER_BAR in *; lia|].
    exists e. split; [exact He | auto]. }
  destruct (c =? note_range self + 1); [eauto|].
  destruct (c =? note_range self); eauto 6.
Qed.

End Generation.

Lemma label_then_decode_witness :
  rbind (instance.melody_to_label __init__
           (instance.melody (repeat 60 32 ++ [60])))
        (fun c => instance.class_index_to_melody_event __init__ c
                    (instance.melody (repeat 60 32)))
  = Ok 60.
Proof.
  apply (label_then_decode instance.NOTE_OFF instance.NO_EVENT __init__
           (repeat 60 32) 60).
  right. right. vm_compute. intros [H _]. apply H. reflexivity.
Defined.

(** ** The scan of the events *)

Lemma contains_true x d : contains x d = true <-> x ∈ d.
Proof.
  unfold contains. rewrite existsb_exists, list_elem_of_In. split.
  - intros (y & Hy & Heq%Z.eqb_eq). by subst.
  - intros Hx. exists x. by rewrite Z.eqb_refl.
Qed.

Lemma deque_remove_elem x d y : y ∈ deque_remove x d -> y ∈ d.
Proof.
  induction d as [|z d IH]; cbn; [done|].
  destruct (z =? x); rewrite !elem_of_cons; [auto|]. intros [?|?]; auto.
Qed.

Lemma deque_remove_NoDup x d :
  NoDup d -> NoDup (deque_remove x d) /\ x ∉ deque_remove x d.
Proof.
  induction 1 as [|z d Hz Hd IH]; cbn; [split; [constructor | by intros ?%elem_of_nil]|].
  destruct (Z.eqb_spec z x) as [->|Hne]; [done|].
  destruct IH as [IH1 IH2]. split.
  - constructor; [|done]. intros Hin. by apply Hz, (deque_remove_elem x).
  - intros [?|?]%elem_of_cons; [congruence | done].
Qed.

Lemma deque_append_spec (d : list Z) x :
  NoDup d -> x ∉ d ->
  (length (deque_append 3 d x) <= 3)%nat /\
  NoDup (deque_append 3 d x) /\
  last (deque_append 3 d x) = Some x /\
  forall y, y ∈ deque_append 3 d x -> y = x \/ y ∈ d.
Proof.
  intros Hd Hx. unfold deque_append. cbv zeta.
  assert (NoDup (d ++ [x])) as Hnd.
  { apply NoDup_app. split; [done|]. split; [|apply NoDup_singleton].
    intros y Hy Hy'%list_elem_of_singleton. by subst. }
  repeat split.
  - rewrite length_drop. lia.
  - eapply sublist_NoDup; [done | apply sublist_drop].
  - rewrite length_app. cbn [length].
    rewrite drop_app_le by lia. apply last_snoc.
  - intros y Hy. apply (subseteq_drop _ (d ++ [x])) in Hy.
    apply elem_of_app in Hy as [?|Hy%list_elem_of_singleton]; auto.
Qed.

Section Scan.

Variables NOTE_OFF NO_EVENT : Z.

#[local] Abbreviation scan_events ev :=
  (fold_left (scan_step NOTE_OFF NO_EVENT) ev scan_init).

(** The window of the last three notes holds at most three pitches, no
    pitch twice, all of them events of the melody other than the
    sentinels; and the sounding pitch, when there is one, is the most
    recent entry of the window. *)
Theorem last_3_notes_window (ev : list Z) :
  (length (last_3_notes (scan_events ev)) <= 3)%nat /\
  NoDup (last_3_notes (scan_events ev)) /\
  (forall x, x ∈ last_3_notes (scan_events ev) ->
             x ∈ ev /\ x <> NO_EVENT /\ x <> NOTE_OFF) /\
  (forall p, current_note (scan_events ev) = Some p ->
             last (last_3_notes (scan_events ev)) = Some p).
Proof.
  induction ev as [|e ev IH] using rev_ind.
  { cbn. split; [lia|]. split; [apply NoDup_nil_2|].
    split; [by intros ? ?%elem_of_nil | done]. }
  rewrite fold_left_app. cbn [fold_left].
  destruct IH as (Hlen & Hnd & Hin & Hcur).
  set (st := scan_events ev) in *. clearbody st. unfold scan_step.
  destruct (Z.eqb_spec e NO_EVENT) as [->|Hno]; cbn [last_3_notes current_note].
  { split_and!; try done. intros z Hz.
    destruct (Hin z Hz) as (? & ? & ?). rewrite elem_of_app. auto. }
  destruct (Z.eqb_spec e NOTE_OFF) as [->|Hoff]; cbn [last_3_notes current_note].
  { split_and!; try done. intros z Hz.
    destruct (Hin z Hz) as (? & ? & ?). rewrite elem_of_app. auto. }
  set (d := if contains e (last_3_notes st)
            then deque_remove e (last_3_notes st)
            else last_3_notes st).
  assert (NoDup d /\ (e ∉ d) /\ forall y, y ∈ d -> y ∈ last_3_notes st)
    as (Hd & He & Hsub).
  { unfold d. destruct (contains e _) eqn:Hc.
    - destruct (deque_remove_NoDup e _ Hnd). split_and!; try done.
      intros y. apply deque_remove_elem.
    - split_and!; try done. intros Hin'%contains_true. congruence. }
  destruct (deque_append_spec d e Hd He) as (Hl & Hn & Hlast & Hel).
  split_and!; try done.
  - intros z Hz. destruct (Hel z Hz) as [->|Hz'].
    + rewrite elem_of_app, list_elem_of_singleton. auto.
    + destruct (Hin z (Hsub z Hz')) as (? & ? & ?).
      rewrite elem_of_app. auto.
  - by intros p [= <-].
Qed.

End Scan.

(** ** Lists of assignments *)

Lemma rbind_Ok_r {A} (r : result A) : rbind r Ok = r.
Proof. by destruct r. Qed.

Lemma apply_writes_app ws1 ws2 l :
  apply_writes (ws1 ++ ws2) l = rbind (apply_writes ws1 l) (apply_writes ws2).
Proof.
  revert l; induction ws1 as [|[i x] ws1 IH]; intros l; cbn; [done|].
  destruct (setitem l i x); cbn; [apply IH | done].
Qed.

Lemma apply_flag_write (b : bool) i x l :
  (if b then setitem l i x else Ok l) = apply_writes (flag_write b i x) l.
Proof. destruct b; cbn; [by rewrite rbind_Ok_r | done]. Qed.

Lemma apply_current_writes self c l :
  current_note_slots self c l = apply_writes (current_writes self c) l.
Proof.
  unfold current_note_slots, current_writes.
  destruct c as [p|]; [destruct (p =? 0)|]; cbn; try by rewrite rbind_Ok_r.
  destruct (setitem l (p - min_note self) f1); cbn; [|done].
  by rewrite rbind_Ok_r.
Qed.

Lemma apply_direction_writes self (asc : option bool) (l : list float) :
  match asc with
  | Some asc => setitem l (note_range self + 3) (if asc then f1 else fm1)
  | None => Ok l
  end = apply_writes (direction_writes self asc) l.
Proof. destruct asc; cbn; [by rewrite rbind_Ok_r | done]. Qed.

Lemma apply_counter_writes self n fuel i l :
  time_counters self n fuel i l = apply_writes (counter_writes self n fuel i) l.
Proof.
  revert i l; induction fuel as [|fuel IH]; intros i l; cbn; [done|].
  destruct (setitem l _ _); cbn; [apply IH | done].
Qed.

Lemma apply_key_writes off mx h i l :
  mark_keys off mx h i l = apply_writes (key_writes off mx h i) l.
Proof.
  revert i l; induction h as [|x h IH]; intros i l; cbn; [done|].
  rewrite apply_writes_app, <- apply_flag_write.
  destruct (if x =? mx then _ else _); cbn; [apply IH | done].
Qed.

Lemma max_of_maximum (h : list Z) : h <> [] -> max_of h = Ok (maximum h).
Proof. by destruct h. Qed.

Lemma repeats_repeated (ev : list Z) (k : nat) :
  repeats (Z.of_nat k + 1 <=? len ev) ev (Z.of_nat k) = Ok (repeated ev k).
Proof.
  unfold repeated. destruct (last ev) as [a|] eqn:Hlast.
  - rewrite <- (repeats_back _ _ _ Hlast). f_equal.
    destruct (Z.leb_spec (Z.of_nat k + 1) (len ev)),
             (Z.ltb_spec (Z.of_nat k) (len ev)); (done || lia).
  - apply last_None in Hlast as ->. unfold repeats, py_and.
    rewrite (proj2 (Z.leb_gt _ _)) by (unfold len; cbn; lia). done.
Qed.

(** Assignments at positions inside the list all go through, and each
    position ends up with the value last assigned to it. *)
Lemma apply_writes_lookup ws l :
  Forall (fun w => 0 <= fst w < len l) ws ->
  exists l',
    apply_writes ws l = Ok l' /\ len l' = len l /\
    forall k, 0 <= k < len l ->
      l' !! Z.to_nat k = match last_write ws k with
                         | Some x => Some x
                         | None => l !! Z.to_nat k
                         end.
Proof.
  revert l; induction ws as [|[i x] ws IH]; intros l Hws; cbn.
  - exists l. done.
  - apply Forall_cons in Hws as [Hi Hws]. cbn in Hi.
    rewrite setitem_in_range by lia. cbn [rbind].
    rewrite wrap_nonneg by lia.
    assert (len (<[Z.to_nat i := x]> l) = len l) as Hlen
      by (unfold len; by rewrite length_insert).
    destruct (IH (<[Z.to_nat i := x]> l)) as (l' & -> & Hl' & Hk).
    { by rewrite Hlen. }
    exists l'. split; [done|]. split; [congruence|]. intros k Hkr.
    rewrite Hk by lia. destruct (last_write ws k); [done|].
    destruct (Z.eqb_spec i k) as [->|Hne].
    + apply list_lookup_insert_eq. unfold len in *. lia.
    + apply list_lookup_insert_ne. lia.
Qed.

(** Whatever the positions, a list of assignments that goes through
    leaves only old entries and assigned values. *)
Lemma apply_writes_Forall (P : float -> Prop) ws l l' :
  apply_writes ws l = Ok l' ->
  Forall P l -> Forall (fun w => P (snd w)) ws ->
  Forall P l' /\ len l' = len l.
Proof.
  revert l; induction ws as [|[i x] ws IH]; intros l; cbn.
  - intros [= <-]. done.
  - intros (l1 & H1 & H)%rbind_Ok Hl [Hx Hws]%Forall_cons.
    pose proof (setitem_length _ _ _ _ H1) as Hlen.
    apply setitem_Ok in H1 as [_ ->].
    destruct (IH _ H) as [? ?]; [by apply Forall_insert | done |].
    split; [done | congruence].
Qed.

Lemma last_write_app ws1 ws2 k :
  last_write (ws1 ++ ws2) k =
  match last_write ws2 k with
  | Some y => Some y
  | None => last_write ws1 k
  end.
Proof.
  induction ws1 as [|[i x] ws1 IH]; cbn.
  - by destruct (last_write ws2 k).
  - rewrite IH. by destruct (last_write ws2 k).
Qed.

Lemma last_write_other ws k :
  Forall (fun w => fst w <> k) ws -> last_write ws k = None.
Proof.
  induction 1 as [|[i x] ws Hi _ IH]; cbn; [done|].
  rewrite IH. cbn in Hi. by rewrite (proj2 (Z.eqb_neq i k)).
Qed.

Lemma last_write_flag (b : bool) i x k :
  last_write (flag_write b i x) k = if b && (i =? k) then Some x else None.
Proof. by destruct b. Qed.

Lemma key_writes_range off mx h i :
  Forall (fun w => off + i <= fst w < off + i + len h /\ snd w = f1)
         (key_writes off mx h i).
Proof.
  revert i; induction h as [|x h IH]; intros i; cbn; [constructor|].
  apply Forall_app. split.
  - destruct (x =? mx); cbn; [|constructor].
    constructor; [|constructor]. cbn. unfold len. cbn [length].
    split; [lia | done].
  - eapply Forall_impl; [apply (IH (i + 1))|]. intros [j y]; cbn.
    unfold len. cbn [length]. intros [? ?]. split; [lia | done].
Qed.

Lemma counter_writes_range self n fuel i :
  Forall (fun w => note_range self + 6 + i <= fst w
                   < note_range self + 6 + i + Z.of_nat fuel /\
                   (snd w = f1 \/ snd w = fm1))
         (counter_writes self n fuel i).
Proof.
  revert i; induction fuel as [|fuel IH]; intros i; cbn [counter_writes];
    [constructor|].
  constructor.
  - cbn. split; [lia|]. destruct (_ =? 0); auto.
  - eapply Forall_impl; [apply (IH (i + 1))|]. intros [j y]; cbn.
    intros [? ?]. split; [lia | done].
Qed.

Lemma last_write_key off mx h i j :
  0 <= j < len h ->
  last_write (key_writes off mx h i) (off + i + j) =
  match h !! Z.to_nat j with
  | Some x => if x =? mx then Some f1 else None
  | None => None
  end.
Proof.
  revert i j; induction h as [|x h IH]; intros i j Hj;
    [unfold len in Hj; cbn in Hj; lia|].
  cbn [key_writes]. rewrite last_write_app.
  destruct (decide (j = 0)) as [->|Hne].
  - rewrite last_write_other.
    + rewrite last_write_flag. cbn. rewrite Z.add_0_r, Z.eqb_refl.
      by rewrite andb_true_r.
    + eapply Forall_impl; [apply key_writes_range|].
      intros [j' y]; cbn. lia.
  - replace (off + i + j) with (off + (i + 1) + (j - 1)) by lia.
    unfold len in Hj. cbn [length] in Hj.
    rewrite IH by (unfold len; lia).
    rewrite lookup_cons_ne_0 by lia.
    replace (Nat.pred (Z.to_nat j)) with (Z.to_nat (j - 1)) by lia.
    destruct (h !! Z.to_nat (j - 1)) as [y|] eqn:Hy.
    + destruct (y =? mx); [done|]. rewrite last_write_flag.
      rewrite (proj2 (Z.eqb_neq (off + i) _)) by lia.
      by rewrite andb_false_r.
    + apply lookup_ge_None in Hy. lia.
Qed.

Lemma last_write_counter self n fuel i j :
  0 <= j < Z.of_nat fuel ->
  last_write (counter_writes self n fuel i) (note_range self + 6 + i + j) =
  Some (if (n / 2 ^ (i + j)) mod 2 =? 0 then fm1 else f1).
Proof.
  revert i j; induction fuel as [|fuel IH]; intros i j Hj; [lia|].
  cbn [counter_writes last_write].
  destruct (decide (j = 0)) as [->|Hne].
  - rewrite last_write_other.
    + rewrite !Z.add_0_r, Z.eqb_refl. done.
    + eapply Forall_impl; [apply counter_writes_range|].
      intros [j' y]; cbn. lia.
  - replace (note_range self + 6 + i + j)
      with (note_range self + 6 + (i + 1) + (j - 1)) by lia.
    rewrite IH by lia. by replace (i + 1 + (j - 1)) with (i + j) by lia.
Qed.

Lemma flag_write_range (b : bool) i x :
  Forall (fun w => fst w = i /\ snd w = x) (flag_write b i x).
Proof. destruct b; repeat constructor. Qed.

Lemma direction_writes_range self asc :
  Forall (fun w => fst w = note_range self + 3 /\
                   (snd w = f1 \/ snd w = fm1))
         (direction_writes self asc).
Proof.
  destruct asc as [[]|]; cbn;
    [apply Forall_singleton; cbn; auto..|apply Forall_nil_2].
Qed.

Lemma current_writes_values self c :
  Forall (fun w => snd w = f1) (current_writes self c).
Proof.
  unfold current_writes.
  destruct c as [p|]; [destruct (p =? 0)|]; repeat constructor.
Qed.

Lemma current_writes_range self c :
  0 <= note_range self -> in_window self c ->
  Forall (fun w => 0 <= fst w < note_range self + 2) (current_writes self c).
Proof.
  intros Hnr Hc. unfold current_writes.
  destruct c as [p|]; [destruct (Z.eqb_spec p 0)|];
    repeat constructor; cbn in *; lia.
Qed.

Lemma encoder_writes_values self st ev keys keys_3 :
  Forall (fun w => is_feature_value (snd w))
         (encoder_writes self st ev keys keys_3).
Proof.
  unfold encoder_writes, is_feature_value.
  repeat (apply Forall_app; split);
    (eapply Forall_impl;
     [first [apply key_writes_range | apply counter_writes_range
            | apply flag_write_range | apply direction_writes_range
            | apply current_writes_values]
     | intros [? ?]; cbn; intuition]).
Qed.

Lemma maximum_spec (h : list Z) :
  h <> [] -> maximum h ∈ h /\ Forall (fun y => y <= maximum h) h.
Proof.
  destruct h as [|x h]; [done|]. intros _. unfold maximum. cbn [hd tail].
  revert x; induction h as [|y h IH]; intros x; cbn [fold_left].
  - split; [apply list_elem_of_singleton; done | by constructor].
  - destruct (IH (Z.max x y)) as [Hin Hall].
    apply Forall_cons in Hall as [Hx Hall]. split.
    + apply elem_of_cons in Hin as [Heq|Hin].
      * rewrite Heq. destruct (Z.max_spec x y) as [[_ ->]|[_ ->]].
        -- apply elem_of_cons. right. apply elem_of_cons. by left.
        -- apply elem_of_cons. by left.
      * apply elem_of_cons. right. apply elem_of_cons. by right.
    + constructor; [lia|]. constructor; [lia | done].
Qed.

Lemma maximal_iff (h : list Z) x :
  x ∈ h -> (x = maximum h <-> Forall (fun y => y <= x) h).
Proof.
  intros Hx. assert (h <> []) as Hne by (intros ->; by apply elem_of_nil in Hx).
  destruct (maximum_spec h Hne) as [Hin Hall]. split.
  - by intros ->.
  - intros Hle. rewrite Forall_forall in Hall, Hle.
    specialize (Hall x Hx). specialize (Hle _ Hin). lia.
Qed.

(** ** The input vector, slot by slot *)

Section Vector.

Variables NOTE_OFF NO_EVENT : Z.
Variable get_major_key_histogram : list Z -> list Z.

(** The key histogram has one bin for each of the twelve keys. *)
Hypothesis key_histogram_length :
  forall ev, length (get_major_key_histogram ev) = 12%nat.

#[local] Abbreviation encode :=
  (melody_to_input NOTE_OFF NO_EVENT get_major_key_histogram).
#[local] Abbreviation scan_events ev :=
  (fold_left (scan_step NOTE_OFF NO_EVENT) ev scan_init).
#[local] Abbreviation writes_of self ev :=
  (encoder_writes self (scan_events ev) ev (get_major_key_histogram ev)
     (get_major_key_histogram (last_3_notes (scan_events ev)))).

Lemma key_histogram_nonempty ev : get_major_key_histogram ev <> [].
Proof.
  pose proof (key_histogram_length ev) as H. by destruct (get_major_key_histogram ev).
Qed.

Ltac stage lem :=
  rewrite apply_writes_app, <- lem;
  match goal with
  | |- context [rbind ?r _] => destruct r; cbn [rbind fst]; [|reflexivity]
  end.

(** The outcome of the call is that of its assignments, carried out in
    order on a vector of zeros. *)
Lemma melody_to_input_writes self melody :
  fst (encode self melody)
  = apply_writes (writes_of self (events melody))
                 (list_repeat f0 (input_size self)).
Proof.
  rewrite melody_to_input_phases.
  unfold attention_rnn.features, encoder_writes. cbv zeta.
  change (2 * STEPS_PER_BAR) with (Z.of_nat 32).
  change STEPS_PER_BAR with (Z.of_nat 16).
  change (Z.to_nat NUM_BINARY_TIME_COUNTERS) with 7%nat.
  stage apply_current_writes.
  stage apply_flag_write.
  stage apply_direction_writes.
  rewrite !repeats_repeated. cbn [rbind].
  stage apply_flag_write.
  stage apply_flag_write.
  stage apply_counter_writes.
  stage apply_flag_write.
  rewrite max_of_maximum by apply key_histogram_nonempty. cbn [rbind].
  stage apply_key_writes.
  unfold attention_rnn.last_3_keys.
  rewrite max_of_maximum by apply key_histogram_nonempty. cbn [rbind].
  rewrite <- apply_key_writes.
  by destruct (mark_keys _ _ _ _ _).
Qed.

Ltac out_of_range :=
  eapply Forall_impl;
  [first [apply key_writes_range | apply counter_writes_range
         | apply flag_write_range | apply direction_writes_range
         | apply current_writes_range; assumption]
  | intros [? ?]; cbn; lia].

Ltac drop_parts :=
  repeat match goal with
         | |- context [last_write ?ws ?k] =>
             rewrite (last_write_other ws k) by out_of_range
         end;
  cbv beta iota.

(** Which group of assignments decides a slot. *)
Lemma last_write_encoder self ev k :
  0 <= note_range self ->
  in_window self (current_note (scan_events ev)) ->
  last_write (writes_of self ev) k =
  if k <? note_range self + 2 then
    last_write (current_writes self (current_note (scan_events ev))) k
  else if k =? note_range self + 2 then
    if is_attack (scan_events ev) then Some f1 else None
  else if k =? note_range self + 3 then
    last_write (direction_writes self (is_ascending (scan_events ev))) k
  else if k =? note_range self + 4 then
    if repeated ev 16 then Some f1 else None
  else if k =? note_range self + 5 then
    if repeated ev 32 then Some f1 else None
  else if k <? note_range self + 13 then
    last_write (counter_writes self (len ev) 7 0) k
  else if k =? note_range self + 13 then
    if len ev mod STEPS_PER_BAR =? 0 then Some f1 else None
  else if k <? note_range self + 26 then
    last_write (key_writes (note_range self + 14)
                  (maximum (get_major_key_histogram ev))
                  (get_major_key_histogram ev) 0) k
  else
    last_write (key_writes (note_range self + 14 + NOTES_PER_OCTAVE)
                  (maximum (get_major_key_histogram
                              (last_3_notes (scan_events ev))))
                  (get_major_key_histogram (last_3_notes (scan_events ev)))
                  0) k.
Proof.
  intros Hnr Hwin. unfold encoder_writes. rewrite !last_write_app.
  change NOTES_PER_OCTAVE with 12.
  assert (len (get_major_key_histogram ev) = 12) as Hk1
    by (unfold len; by rewrite key_histogram_length).
  assert (len (get_major_key_histogram (last_3_notes (scan_events ev))) = 12)
    as Hk2 by (unfold len; by rewrite key_histogram_length).
  destruct (Z.ltb_spec k (note_range self + 2)).
  { drop_parts. by destruct (last_write (current_writes _ _) k). }
  destruct (Z.eqb_spec k (note_range self + 2)) as [->|].
  { drop_parts. rewrite last_write_flag, Z.eqb_refl, andb_true_r.
    by destruct (is_attack _). }
  destruct (Z.eqb_spec k (note_range self + 3)) as [->|].
  { drop_parts. by destruct (last_write (direction_writes _ _) _). }
  destruct (Z.eqb_spec k (note_range self + 4)) as [->|].
  { drop_parts. rewrite last_write_flag, Z.eqb_refl, andb_true_r.
    by destruct (repeated ev 16). }
  destruct (Z.eqb_spec k (note_range self + 5)) as [->|].
  { drop_parts. rewrite last_write_flag, Z.eqb_refl, andb_true_r.
    by destruct (repeated ev 32). }
  destruct (Z.ltb_spec k (note_range self + 13)).
  { drop_parts. by destruct (last_write (counter_writes _ _ _ _) k). }
  destruct (Z.eqb_spec k (note_range self + 13)) as [->|].
  { drop_parts. rewrite last_write_flag, Z.eqb_refl, andb_true_r.
    by destruct (_ =? 0). }
  destruct (Z.ltb_spec k (note_range self + 26)).
  { drop_parts. by destruct (last_write (key_writes _ _ _ _) k). }
  drop_parts. by destruct (last_write (key_writes _ _ _ _) k).
Qed.

Lemma encoder_writes_in_range self ev :
  0 <= note_range self ->
  in_window self (current_note (scan_events ev)) ->
  Forall (fun w => 0 <= fst w < input_size self) (writes_of self ev).
Proof.
  intros Hnr Hwin. unfold encoder_writes, input_size, NUM_SPECIAL_INPUTS.
  change NOTES_PER_OCTAVE with 12.
  assert (len (get_major_key_histogram ev) = 12) as Hk1
    by (unfold len; by rewrite key_histogram_length).
  assert (len (get_major_key_histogram (last_3_notes (scan_events ev))) = 12)
    as Hk2 by (unfold len; by rewrite key_histogram_length).
  repeat (apply Forall_app; split);
    (eapply Forall_impl;
     [first [apply key_writes_range | apply counter_writes_range
            | apply flag_write_range | apply direction_writes_range
            | apply current_writes_range; assumption]
     | intros [? ?]; cbn; lia]).
Qed.

(** With the sounding pitch in the window the call returns, and every
    slot holds the value last assigned to it, or zero. *)
Lemma encode_in_window self melody :
  0 <= note_range self ->
  in_window self (current_note (scan_events (events melody))) ->
  exists v,
    fst (encode self melody) = Ok v /\
    forall k, 0 <= k < input_size self ->
      v !! Z.to_nat k
      = Some (default f0 (last_write (writes_of self (events melody)) k)).
Proof.
  intros Hnr Hwin. rewrite melody_to_input_writes.
  assert (len (list_repeat f0 (input_size self)) = input_size self) as Hlen.
  { rewrite len_list_repeat. unfold input_size, NUM_SPECIAL_INPUTS.
    change NOTES_PER_OCTAVE with 12. lia. }
  destruct (apply_writes_lookup (writes_of self (events melody))
              (list_repeat f0 (input_size self))) as (v & Hv & _ & Hk).
  { rewrite Hlen. by apply encoder_writes_in_range. }
  exists v. split; [done|]. intros k Hkr. rewrite Hk by lia.
  destruct (last_write _ k); [done|]. cbn.
  apply lookup_replicate_2. lia.
Qed.

(** When the call returns, the vector has [input_size] entries, each of
    them 0.0, 1.0 or -1.0, whatever the pitches of the melody. *)
Theorem input_vector_shape self melody v :
  fst (encode self melody) = Ok v ->
  len v = input_size self /\ Forall is_feature_value v.
Proof.
  intros Hv. split.
  - rewrite melody_to_input_phases in Hv.
    destruct (features _ _ _ self (events melody)) as [input_|] eqn:Hf;
      [|done].
    destruct (features_length _ _ _ _ _ _ Hf) as [Hlen _].
    cbv zeta in Hv. unfold attention_rnn.last_3_keys in Hv.
    destruct (rbind _ _) as [v'|] eqn:Hl; [|done]. cbn in Hv.
    injection Hv as <-. apply rbind_Ok in Hl as (mx & _ & Hl).
    apply mark_keys_length in Hl. congruence.
  - rewrite melody_to_input_writes in Hv.
    eapply apply_writes_Forall; [exact Hv| |apply encoder_writes_values].
    apply Forall_replicate. by left.
Qed.

(** The slots of the metric position: the bar-start slot is set exactly
    when the length of the melody is a multiple of 16, and the seven
    time-counter slots spell the length in binary, 1.0 for a set bit and
    -1.0 for a clear one, lowest bit first. *)
Theorem metric_position_slots self melody :
  0 <= note_range self ->
  in_window self (current_note (scan_events (events melody))) ->
  exists v,
    fst (encode self melody) = Ok v /\
    v !! Z.to_nat (note_range self + 13)
      = Some (if len (events melody) mod 16 =? 0 then f1 else f0) /\
    forall i, 0 <= i < 7 ->
      v !! Z.to_nat (note_range self + 6 + i)
      = Some (if Z.testbit (len (events melody)) i then f1 else fm1).
Proof.
  intros Hnr Hwin.
  destruct (encode_in_window self melody Hnr Hwin) as (v & Hv & Hk).
  assert (input_size self = note_range self + 38) as Hsize.
  { unfold input_size, NUM_SPECIAL_INPUTS. change NOTES_PER_OCTAVE with 12.
    lia. }
  exists v. split; [done|]. split.
  - rewrite Hk, (last_write_encoder _ _ _ Hnr Hwin) by lia.
    rewrite (proj2 (Z.ltb_ge _ _)) by lia.
    rewrite !(proj2 (Z.eqb_neq (note_range self + 13) _)) by lia.
    rewrite (proj2 (Z.ltb_ge _ _)), Z.eqb_refl by lia.
    change STEPS_PER_BAR with 16. by destruct (_ =? 0).
  - intros i Hi.
    rewrite Hk, (last_write_encoder _ _ _ Hnr Hwin) by lia.
    rewrite (proj2 (Z.ltb_ge _ _)) by lia.
    rewrite !(proj2 (Z.eqb_neq (note_range self + 6 + i) _)) by lia.
    rewrite (proj2 (Z.ltb_lt _ _)) by lia.
    replace (note_range self + 6 + i) with (note_range self + 6 + 0 + i)
      by lia.
    rewrite last_write_counter by lia. cbn [default]. f_equal.
    rewrite Z.add_0_l.
    pose proof (Z.testbit_spec' (len (events melody)) i (proj1 Hi)) as Hb.
    rewrite <- Hb. by destruct (Z.testbit _ i).
Qed.

(** The two repeat slots report whether the last event equals the event
    16, respectively 32, steps before it; they are consistent with the
    labelling: when the 2-bar slot is set the label is the 2-bar class,
    and when the 1-bar slot is set the label is one of the two repeat
    classes. *)
Theorem repeat_slots self melody :
  0 <= note_range self ->
  in_window self (current_note (scan_events (events melody))) ->
  exists v,
    fst (encode self melody) = Ok v /\
    v !! Z.to_nat (note_range self + 4)
      = Some (if repeated (events melody) 16 then f1 else f0) /\
    v !! Z.to_nat (note_range self + 5)
      = Some (if repeated (events melody) 32 then f1 else f0) /\
    (v !! Z.to_nat (note_range self + 5) = Some f1 ->
     melody_to_label NOTE_OFF NO_EVENT self melody
       = Ok (note_range self + 3)) /\
    (v !! Z.to_nat (note_range self + 4) = Some f1 ->
     melody_to_label NOTE_OFF NO_EVENT self melody
       = Ok (note_range self + 3) \/
     melody_to_label NOTE_OFF NO_EVENT self melody
       = Ok (note_range self + 2)).
Proof.
  intros Hnr Hwin.
  destruct (encode_in_window self melody Hnr Hwin) as (v & Hv & Hk).
  assert (input_size self = note_range self + 38) as Hsize.
  { unfold input_size, NUM_SPECIAL_INPUTS. change NOTES_PER_OCTAVE with 12.
    lia. }
  assert (v !! Z.to_nat (note_range self + 4)
          = Some (if repeated (events melody) 16 then f1 else f0)) as H4.
  { rewrite Hk, (last_write_encoder _ _ _ Hnr Hwin) by lia.
    rewrite (proj2 (Z.ltb_ge _ _)) by lia.
    rewrite !(proj2 (Z.eqb_neq (note_range self + 4) _)) by lia.
    rewrite Z.eqb_refl. by destruct (repeated _ 16). }
  assert (v !! Z.to_nat (note_range self + 5)
          = Some (if repeated (events melody) 32 then f1 else f0)) as H5.
  { rewrite Hk, (last_write_encoder _ _ _ Hnr Hwin) by lia.
    rewrite (proj2 (Z.ltb_ge _ _)) by lia.
    rewrite !(proj2 (Z.eqb_neq (note_range self + 5) _)) by lia.
    rewrite Z.eqb_refl. by destruct (repeated _ 32). }
  exists v. split; [done|]. split; [done|]. split; [done|].
  rewrite H4, H5. destruct melody as [ev]. cbn [events] in *.
  unfold repeated. destruct (last ev) as [a|] eqn:Hlast; [|by split].
  rewrite (melody_to_label_rule _ _ _ _ a Hlast).
  unfold attention_rnn.label_rule.
  change (2 * 16)%nat with 32%nat. split.
  - destruct (bool_decide (back ev 32 = Some a)); [|done].
    by rewrite orb_true_r.
  - destruct (bool_decide (back ev 16 = Some a)); [|done].
    destruct (_ || _); auto.
Qed.

(** The key-indicator slots: in each of the two groups of twelve, the
    slot of a key is set exactly when no key has a larger count in the
    histogram, of the whole melody for the first group and of the last
    three notes for the second. *)
Theorem key_indicator_slots self melody :
  0 <= note_range self ->
  in_window self (current_note (scan_events (events melody))) ->
  exists v,
    fst (encode self melody) = Ok v /\
    forall i x, 0 <= i < 12 ->
      (get_major_key_histogram (events melody) !! Z.to_nat i = Some x ->
       v !! Z.to_nat (note_range self + 14 + i)
       = Some (if bool_decide
                    (Forall (fun y => y <= x)
                            (get_major_key_histogram (events melody)))
               then f1 else f0)) /\
      (get_major_key_histogram
         (last_3_notes (scan_events (events melody))) !! Z.to_nat i = Some x ->
       v !! Z.to_nat (note_range self + 26 + i)
       = Some (if bool_decide
                    (Forall (fun y => y <= x)
                            (get_major_key_histogram
                               (last_3_notes (scan_events (events melody)))))
               then f1 else f0)).
Proof.
  intros Hnr Hwin.
  destruct (encode_in_window self melody Hnr Hwin) as (v & Hv & Hk).
  assert (input_size self = note_range self + 38) as Hsize.
  { unfold input_size, NUM_SPECIAL_INPUTS. change NOTES_PER_OCTAVE with 12.
    lia. }
  assert (forall h i x, len h = 12 -> 0 <= i < 12 ->
            h !! Z.to_nat i = Some x ->
            forall off,
              default f0 (last_write (key_writes off (maximum h) h 0)
                                     (off + i))
              = if bool_decide (Forall (fun y => y <= x) h) then f1 else f0)
    as Hkey.
  { intros h i x Hlen Hi Hx off.
    replace (off + i) with (off + 0 + i) by lia.
    rewrite last_write_key, Hx by lia.
    pose proof (maximal_iff h x (list_elem_of_lookup_2 _ _ _ Hx)) as Hmax.
    destruct (Z.eqb_spec x (maximum h)) as [Heq|Hne].
    - by rewrite bool_decide_eq_true_2 by by apply Hmax.
    - by rewrite bool_decide_eq_false_2 by (by rewrite <- Hmax). }
  exists v. split; [done|]. intros i x Hi. split; intros Hx.
  - rewrite Hk, (last_write_encoder _ _ _ Hnr Hwin) by lia.
    rewrite (proj2 (Z.ltb_ge _ (note_range self + 2))) by lia.
    rewrite !(proj2 (Z.eqb_neq (note_range self + 14 + i) _)) by lia.
    rewrite (proj2 (Z.ltb_ge _ (note_range self + 13))) by lia.
    rewrite (proj2 (Z.ltb_lt _ (note_range self + 26))) by lia.
    f_equal. apply Hkey; [|done..].
    unfold len. by rewrite key_histogram_length.
  - rewrite Hk, (last_write_encoder _ _ _ Hnr Hwin) by lia.
    rewrite (proj2 (Z.ltb_ge _ (note_range self + 2))) by lia.
    rewrite !(proj2 (Z.eqb_neq (note_range self + 26 + i) _)) by lia.
    rewrite (proj2 (Z.ltb_ge _ (note_range self + 13))) by lia.
    rewrite (proj2 (Z.ltb_ge _ (note_range self + 26))) by lia.
    f_equal. change NOTES_PER_OCTAVE with 12.
    replace (note_range self + 26 + i) with (note_range self + 14 + 12 + i)
      by lia.
    apply Hkey; [|done..]. unfold len. by rewrite key_histogram_length.
Qed.

(** The attack flag of the scan, in closed form: the most recent event
    other than a note-off decides it. *)
Lemma is_attack_closed (ev : list Z) :
  NOTE_OFF <> NO_EVENT ->
  is_attack (scan_events ev) =
  match last (filter (fun e => e <> NOTE_OFF) ev) with
  | Some e => negb (e =? NO_EVENT)
  | None => false
  end.
Proof.
  intros Hdistinct. induction ev as [|e ev IH] using rev_ind; [done|].
  rewrite fold_left_app, filter_app. cbn [fold_left]. unfold scan_step.
  destruct (Z.eqb_spec e NO_EVENT) as [->|Hno].
  - rewrite filter_cons_True by congruence. rewrite filter_nil, last_snoc.
    by rewrite Z.eqb_refl.
  - destruct (Z.eqb_spec e NOTE_OFF) as [->|Hoff].
    + rewrite filter_cons_False by (intros H; by apply H).
      rewrite filter_nil, app_nil_r. exact IH.
    + rewrite filter_cons_True by done. rewrite filter_nil, last_snoc.
      by rewrite (proj2 (Z.eqb_neq e NO_EVENT)).
Qed.

(** The attack slot is set exactly when the most recent event other than
    a note-off is a note-on; a note-off leaves the slot as it was, so it
    can be set while the melody is silent. *)
Theorem attack_slot self melody :
  NOTE_OFF <> NO_EVENT ->
  0 <= note_range self ->
  in_window self (current_note (scan_events (events melody))) ->
  exists v,
    fst (encode self melody) = Ok v /\
    v !! Z.to_nat (note_range self + 2)
    = Some match last (filter (fun e => e <> NOTE_OFF) (events melody)) with
           | Some e => if e =? NO_EVENT then f0 else f1
           | None => f0
           end.
Proof.
  intros Hdistinct Hnr Hwin.
  destruct (encode_in_window self melody Hnr Hwin) as (v & Hv & Hk).
  assert (input_size self = note_range self + 38) as Hsize.
  { unfold input_size, NUM_SPECIAL_INPUTS. change NOTES_PER_OCTAVE with 12.
    lia. }
  exists v. split; [done|].
  rewrite Hk, (last_write_encoder _ _ _ Hnr Hwin) by lia.
  rewrite (proj2 (Z.ltb_ge _ _)), Z.eqb_refl by lia.
  rewrite (is_attack_closed _ Hdistinct).
  destruct (last _) as [e|]; [|done]. by destruct (e =? NO_EVENT).
Qed.

End Vector.

(** A melody of one bar: a note held for the whole bar. *)
#[local] Abbreviation one_bar :=
  (instance.melody (60 :: repeat instance.NO_EVENT 15)).

(** A melody that plays the same two bars twice and starts them again. *)
#[local] Abbreviation third_time :=
  (instance.melody
     (60 :: repeat instance.NO_EVENT 15 ++ 60 :: repeat instance.NO_EVENT 15
         ++ [60])).

Ltac sounding_in_window :=
  vm_compute; right; split; [discriminate | reflexivity].

Lemma input_vector_shape_witness :
  exists v,
    fst (instance.melody_to_input __init__ one_bar) = Ok v /\
    len v = input_size __init__ /\ Forall is_feature_value v.
Proof.
  eexists. split; [vm_compute; reflexivity|].
  apply (input_vector_shape instance.NOTE_OFF instance.NO_EVENT
           instance.get_major_key_histogram (fun ev => eq_refl)
           __init__ one_bar).
  vm_compute. reflexivity.
Defined.

Lemma metric_position_slots_witness :
  exists v,
    fst (instance.melody_to_input __init__ one_bar) = Ok v /\
    v !! Z.to_nat (note_range __init__ + 13)
      = Some (if len (events one_bar) mod 16 =? 0 then f1 else f0) /\
    forall i, 0 <= i < 7 ->
      v !! Z.to_nat (note_range __init__ + 6 + i)
      = Some (if Z.testbit (len (events one_bar)) i then f1 else fm1).
Proof.
  apply (metric_position_slots instance.NOTE_OFF instance.NO_EVENT
           instance.get_major_key_histogram (fun ev => eq_refl)
           __init__ one_bar).
  - vm_compute. discriminate.
  - sounding_in_window.
Defined.

Lemma repeat_slots_witness :
  exists v,
    fst (instance.melody_to_input __init__ third_time) = Ok v /\
    v !! Z.to_nat (note_range __init__ + 4) = Some f1 /\
    v !! Z.to_nat (note_range __init__ + 5) = Some f1 /\
    instance.melody_to_label __init__ third_time
      = Ok (note_range __init__ + 3).
Proof.
  destruct (repeat_slots instance.NOTE_OFF instance.NO_EVENT
              instance.get_major_key_histogram (fun ev => eq_refl)
              __init__ third_time) as (v & Hv & H4 & H5 & Hlabel & _).
  - vm_compute. discriminate.
  - sounding_in_window.
  - exists v. split; [exact Hv|]. split; [exact H4|]. split; [exact H5|].
    apply Hlabel. exact H5.
Defined.

Lemma key_indicator_slots_witness :
  exists v,
    fst (instance.melody_to_input __init__ one_bar) = Ok v /\
    v !! Z.to_nat (note_range __init__ + 14 + 0) = Some f1 /\
    v !! Z.to_nat (note_range __init__ + 26 + 0) = Some f1.
Proof.
  destruct (key_indicator_slots instance.NOTE_OFF instance.NO_EVENT
              instance.get_major_key_histogram (fun ev => eq_refl)
              __init__ one_bar) as (v & Hv & Hkeys).
  - vm_compute. discriminate.
  - sounding_in_window.
  - exists v. split; [exact Hv|].
    destruct (Hkeys 0 1) as [H1 H2]; [lia|].
    split; [apply H1 | apply H2]; reflexivity.
Defined.

Lemma attack_slot_witness :
  exists v,
    fst (instance.melody_to_input __init__
           (instance.melody [60; instance.NOTE_OFF])) = Ok v /\
    v !! Z.to_nat (note_range __init__ + 2) = Some f1.
Proof.
  apply (attack_slot instance.NOTE_OFF instance.NO_EVENT
           instance.get_major_key_histogram (fun ev => eq_refl)
           __init__ (instance.melody [60; instance.NOTE_OFF])).
  - discriminate.
  - vm_compute. discriminate.
  - exact I.
Defined.

End attention_rnn_facts.
